(** * fix_email: a shallow embedding of the classification and filtering core

    The development follows the JavaScript sources module by module:

    - [JsString]   the string primitives the sources call
                   ([toLowerCase], [trim], [includes], [startsWith],
                   [endsWith], [slice]);
    - [Regex]      a backtracking matcher, written as list-of-successes
                   combinators, for the regular expressions of the sources;
    - [Runtime]    the provider, the clock and the console, and the monad
                   of asynchronous code that may throw;
    - [Utils]      utils.js: [extractDomain], [extractEmail],
                   [isProtectedSender], [PROTECTED_DOMAINS],
                   [isFromProtectedDomain], [sleep], [withRetry],
                   [RateLimiter.wait];
    - [Analyzer]   emailAnalyzer.js: [categorizeEmail], [analyzeEmail];
    - [Filter]     emailFilter.js: [applyLabel], [archiveMessages],
                   [getFrequentSenders], [filterExists], [createFilters];
    - [Checkpoint] checkpoint.js: [loadCheckpoint], [saveCheckpoint],
                   [updateCheckpoint];
    - [Spec], [TraceLogic], [Samples]
                   definitions after the words of the specification, the
                   vocabulary of the statements, concrete inputs.

    The properties come last, component by component.

    Strings are sequences of code units below 256 (the Latin-1 range), on
    which [toLowerCase], [trim] and the character classes of the regular
    expressions are modelled exactly as ECMAScript defines them. The
    spinner and the colours of the console output are left out. *)

From Stdlib Require Import ZArith NArith Ascii String List Bool Lia Sorted.
From stdpp Require Import base option list gmap strings.

Open Scope string_scope.

(* ===================================================================== *)
(** ** JavaScript strings                                                 *)
(* ===================================================================== *)

Module JsString.

Definition codeUnit (c : ascii) : N := N_of_ascii c.

(** [String.prototype.toLowerCase] on one code unit of the Latin-1 range:
    A-Z and the accented capitals U+00C0..U+00DE (except the
    multiplication sign U+00D7) move up by 32. *)
Definition toLowerCaseChar (c : ascii) : ascii :=
  let n := codeUnit c in
  if ((65 <=? n) && (n <=? 90) ||
      (192 <=? n) && (n <=? 222) && negb (n =? 215))%N
  then ascii_of_N (n + 32) else c.

Fixpoint toLowerCase (s : string) : string :=
  match s with
  | EmptyString => EmptyString
  | String c s' => String (toLowerCaseChar c) (toLowerCase s')
  end.

(** WhiteSpace and LineTerminator code units below 256: TAB, LF, VT, FF,
    CR, SP and NBSP. This is the set stripped by [trim] and matched by
    the class [\s]. *)
Definition isWhiteSpace (c : ascii) : bool :=
  let n := codeUnit c in
  ((9 <=? n) && (n <=? 13) || (n =? 32) || (n =? 160))%N.

(** LineTerminator code units below 256: LF and CR (excluded by [.]). *)
Definition isLineTerminator (c : ascii) : bool :=
  let n := codeUnit c in ((n =? 10) || (n =? 13))%N.

Fixpoint trimStart (s : string) : string :=
  match s with
  | String c s' => if isWhiteSpace c then trimStart s' else s
  | EmptyString => EmptyString
  end.

(** the string without its trailing white space *)
Fixpoint trimEnd (s : string) : string :=
  match s with
  | EmptyString => EmptyString
  | String c s' =>
      match trimEnd s' with
      | EmptyString => if isWhiteSpace c then EmptyString
                       else String c EmptyString
      | t => String c t
      end
  end.

Definition trim (s : string) : string := trimEnd (trimStart s).

Fixpoint startsWith (s p : string) : bool :=
  match p, s with
  | EmptyString, _ => true
  | String a p', String b s' => Ascii.eqb a b && startsWith s' p'
  | String _ _, EmptyString => false
  end.

(** [s.includes(p)]: [p] occurs at some position of [s]. *)
Fixpoint includes (s p : string) : bool :=
  startsWith s p ||
  match s with
  | EmptyString => false
  | String _ s' => includes s' p
  end.

(** [s.endsWith(p)]: [p] is equal to some suffix of [s]. *)
Fixpoint endsWith (s p : string) : bool :=
  String.eqb s p ||
  match s with
  | EmptyString => false
  | String _ s' => endsWith s' p
  end.

(** [s.slice(1)] *)
Definition slice1 (s : string) : string :=
  match s with
  | EmptyString => EmptyString
  | String _ s' => s'
  end.

(** [Array.prototype.includes] on an array of strings. *)
Definition arrayIncludes (l : list string) (x : string) : bool :=
  existsb (String.eqb x) l.

End JsString.

(* ===================================================================== *)
(** ** Regular expressions                                                *)
(* ===================================================================== *)

(** A pattern is a function from the input to the list of its possible
    matches at the start of the input, in the priority order of a
    backtracking engine; the head of the list is the match JavaScript
    reports. Quantifiers apply to single-character classes only, as they
    do in every regular expression of the sources. *)
Module Regex.
Import JsString.

Definition Pattern (A : Type) : Type := string -> list (A * string).

Definition pure {A} (a : A) : Pattern A := fun s => [(a, s)].

Definition andThen {A B} (p : Pattern A) (f : A -> Pattern B) : Pattern B :=
  fun s => flat_map (fun '(a, rest) => f a rest) (p s).

Notation "x <~ p ;; q" := (andThen p (fun x => q))
  (at level 65, p at next level, right associativity).
Notation "p ~> q" := (andThen p (fun _ => q))
  (at level 65, right associativity).

(** one character of a class *)
Definition one (cls : ascii -> bool) : Pattern ascii :=
  fun s => match s with
           | String c s' => if cls c then [(c, s')] else []
           | EmptyString => []
           end.

(** [cls+], greedy: the longest run first *)
Fixpoint plus (cls : ascii -> bool) (s : string) : list (string * string) :=
  match s with
  | String c s' =>
      if cls c
      then (map (fun '(m, r) => (String c m, r)) (plus cls s')
              ++ [(String c EmptyString, s')])%list
      else []
  | EmptyString => []
  end.

(** [cls+?], lazy: the shortest run first *)
Fixpoint plusLazy (cls : ascii -> bool) (s : string) : list (string * string) :=
  match s with
  | String c s' =>
      if cls c
      then (String c EmptyString, s')
             :: map (fun '(m, r) => (String c m, r)) (plusLazy cls s')
      else []
  | EmptyString => []
  end.

(** [cls*], greedy *)
Definition star (cls : ascii -> bool) : Pattern string :=
  fun s => (plus cls s ++ [(EmptyString, s)])%list.

(** character classes *)
Definition dot (c : ascii) : bool := negb (isLineTerminator c).
Definition notSpace (c : ascii) : bool := negb (isWhiteSpace c).
Definition notGtSpace (c : ascii) : bool :=
  negb (Ascii.eqb c ">") && negb (isWhiteSpace c).
Definition chr (a : ascii) (c : ascii) : bool := Ascii.eqb a c.
(** a pattern character under the [i] flag: on code units below 256 two
    characters have the same canonical form exactly when they have the
    same lower-case form *)
Definition chrI (a : ascii) (c : ascii) : bool :=
  Ascii.eqb (toLowerCaseChar a) (toLowerCaseChar c).

(** a literal word under the [i] flag *)
Fixpoint litI (word : string) : Pattern unit :=
  match word with
  | EmptyString => pure tt
  | String a word' => one (chrI a) ~> litI word'
  end.

(** [String.prototype.match] without the [g] flag: the first start
    position, from the left, at which the pattern matches. *)
Fixpoint exec {A} (p : Pattern A) (s : string) : option A :=
  match p s with
  | (a, _) :: _ => Some a
  | [] => match s with
          | String _ s' => exec p s'
          | EmptyString => None
          end
  end.

(** [RegExp.prototype.test] *)
Definition test {A} (p : Pattern A) (s : string) : bool :=
  match exec p s with Some _ => true | None => false end.

End Regex.

(* ===================================================================== *)
(** ** The runtime: provider, clock, console                              *)
(* ===================================================================== *)

(** The mail provider is external. Its behaviour is an arbitrary function
    of the interaction so far: every request is answered from the history
    of events that precede it. The program's effects are recorded in a
    trace: requests sent to the provider, timer sleeps, console lines. *)
Module Runtime.

(** a thrown value: [error.code] and [error.message] may be undefined *)
Record Error := mkError { code : option Z; message : option string }.

Record Criteria := mkCriteria { from : option string }.
Record FilterRule := mkFilterRule { criteria : option Criteria }.
Record Header := mkHeader { name : string; value : string }.
(** [response.data] of [users.messages.get]: [headers] stands for
    [payload.headers], undefined when the payload or its headers are
    missing *)
Record Message := mkMessage {
  headers : option (list Header);
  labelIds : option (list string) }.
Record Label := mkLabel { id : string }.

Inductive Request : Type :=
| FiltersList
| FiltersCreate (sender : string) (addLabelIds removeLabelIds : list string)
| BatchModify (ids addLabelIds removeLabelIds : list string)
| MessagesGet (messageId : string).

Inductive Response : Type :=
| RFilters (filter : option (list FilterRule))
| RMessage (data : Message)
| RDone.

Inductive Event : Type :=
| EvCall (r : Request)
| EvSleep (ms : Z)
| EvWarnRateLimited (delay : Z) (retry maxRetries : nat)
| EvConsoleError (prefix : string) (msg : option string)
| EvConsoleLog (line : string).

Definition Gmail : Type := list Event -> Request -> Error + Response.

(** The environment ([time] is [Date.now()], [trace] is chronological)
    and the fields of the object at work: [lastRequest] is
    [this.rateLimiter.lastRequest], [existingFilters] is the cache
    [this.existingFilters] ([None] for null). *)
Record World := mkWorld {
  time : Z;
  trace : list Event;
  lastRequest : Z;
  existingFilters : option (list FilterRule) }.

Definition emit (e : Event) (w : World) : World :=
  mkWorld (time w) (trace w ++ [e]) (lastRequest w) (existingFilters w).
Definition advance (ms : Z) (w : World) : World :=
  mkWorld (time w + Z.max 0 ms) (trace w) (lastRequest w) (existingFilters w).
Definition setLastRequest (t : Z) (w : World) : World :=
  mkWorld (time w) (trace w) t (existingFilters w).
Definition setExistingFilters (fs : list FilterRule) (w : World) : World :=
  mkWorld (time w) (trace w) (lastRequest w) (Some fs).

(** Asynchronous code that may throw: a state and error monad. *)
Definition M (A : Type) : Type := World -> (Error + A) * World.

Definition ret {A} (a : A) : M A := fun w => (inr a, w).
Definition throw {A} (e : Error) : M A := fun w => (inl e, w).
Definition bind {A B} (m : M A) (f : A -> M B) : M B :=
  fun w => match m w with
           | (inr a, w1) => f a w1
           | (inl e, w1) => (inl e, w1)
           end.
(** [try { m } catch (error) { handler }] *)
Definition tryCatch {A} (m : M A) (handler : Error -> M A) : M A :=
  fun w => match m w with
           | (inr a, w1) => (inr a, w1)
           | (inl e, w1) => handler e w1
           end.

#[global] Instance M_ret : MRet M := @ret.
#[global] Instance M_bind : MBind M := fun A B f m => bind m f.

Definition console (e : Event) : M unit := fun w => (inr tt, emit e w).

(** one request to the provider: answered from the history, then logged;
    the clock of the model does not move while a request is served *)
Definition call (gmail : Gmail) (r : Request) : M Response :=
  fun w => (gmail (trace w) r, emit (EvCall r) w).

(** [for (const x of xs) { acc = body(acc, x) }] *)
Fixpoint forOf {A B} (body : B -> A -> M B) (xs : list A) (acc : B) : M B :=
  match xs with
  | [] => ret acc
  | x :: xs' => acc' ← body acc x; forOf body xs' acc'
  end.

(** the requests of a trace, in order *)
Definition requests (t : list Event) : list Request :=
  omap (fun e => match e with EvCall r => Some r | _ => None end) t.
Definition ncalls (t : list Event) : nat := length (requests t).

End Runtime.

(* ===================================================================== *)
(** ** utils.js                                                           *)
(* ===================================================================== *)

Module Utils.
Import JsString Regex Runtime.

(** [/@([^>\s]+)/], returning capture group 1 *)
Definition reDomain : Pattern string :=
  one (chr "@") ~> d <~ plus notGtSpace ;; pure d.

(** [/<(.+?)>/], returning capture group 1 *)
Definition reAngle : Pattern string :=
  one (chr "<") ~> m <~ plusLazy dot ;; one (chr ">") ~> pure m.

(** [/([^\s]+@[^\s]+)/], returning capture group 1 *)
Definition reAddress : Pattern string :=
  a <~ plus notSpace ;; one (chr "@") ~> b <~ plus notSpace ;;
  pure (a +:+ "@" +:+ b).

Definition extractDomain (email : string) : string :=
  match exec reDomain email with
  | Some m1 => toLowerCase m1
  | None => ""
  end.

Definition extractEmail (fromField : string) : string :=
  match
    match exec reAngle fromField with
    | Some m => Some m
    | None => exec reAddress fromField
    end
  with
  | Some m1 => toLowerCase m1
  | None => toLowerCase fromField
  end.

Definition isProtectedSender (email : string) (protectedSenders : list string)
  : bool :=
  let emailLower := toLowerCase email in
  let domain := extractDomain emailLower in
  existsb (fun sender =>
    let senderLower := trim (toLowerCase sender) in
    (* Exact email match *)
    if String.eqb emailLower senderLower then true
    (* Domain match (if sender is just a domain) *)
    else if negb (includes senderLower "@") && endsWith domain senderLower
    then true
    (* Domain suffix match *)
    else if startsWith senderLower "@" then
      let senderDomain := slice1 senderLower in
      String.eqb domain senderDomain || endsWith domain ("." +:+ senderDomain)
    else
      (* Email domain match *)
      let senderDomain := extractDomain senderLower in
      if negb (String.eqb senderDomain "") && String.eqb domain senderDomain
      then true
      else false) protectedSenders.

Definition PROTECTED_DOMAINS : list string :=
  [ "chase.com"; "capitalone.com"; "paypal.com"; "venmo.com"; "mercury.com";
    "rippling.com"; "uber.com"; "lyft.com"; "doordash.com"; "google.com";
    "github.com"; "apple.com"; "citi.com"; "amex.com"; "americanexpress.com";
    "wellsfargo.com"; "bankofamerica.com"; "sutterhealth.org"; "united.com";
    "delta.com"; "southwest.com"; "aa.com" ].

Definition isFromProtectedDomain (email : string) : bool :=
  let domain := extractDomain email in
  existsb (fun pd => String.eqb domain pd || endsWith domain ("." +:+ pd))
          PROTECTED_DOMAINS.

(** [sleep(ms)]: the timer fires after [ms] milliseconds (at once for a
    negative delay). *)
Definition sleep (ms : Z) : M unit :=
  fun w => (inr tt, advance ms (emit (EvSleep ms) w)).

(** [error.code === 401 || error.code === 404] *)
Definition isFatal (error : Error) : bool :=
  match code error with
  | Some c => (c =? 401)%Z || (c =? 404)%Z
  | None => false
  end.

(** [error.code === 429 || error.message?.includes('Rate Limit')] *)
Definition isRateLimit (error : Error) : bool :=
  match code error with Some c => (c =? 429)%Z | None => false end
  || match message error with
     | Some m => includes m "Rate Limit"
     | None => false
     end.

(** The loop of [withRetry] from iteration [attempt] on, with
    [remaining = maxRetries - attempt] iterations left after this one.
    [attempt < maxRetries] is [remaining > 0]; leaving the loop throws
    [lastError], the error of the last iteration. *)
Fixpoint withRetryFrom {A} (fn : M A) (baseDelay : Z)
         (maxRetries attempt remaining : nat) : M A :=
  tryCatch fn (fun error =>
    (* Don't retry on auth errors or not found *)
    if isFatal error then throw error
    (* Rate limit error - back off more aggressively *)
    else if isRateLimit error then
      let delay := (baseDelay * 2 ^ (Z.of_nat attempt + 2))%Z in
      console (EvWarnRateLimited delay (attempt + 1) maxRetries) ;;
      sleep delay ;;
      match remaining return M A with
      | S r => withRetryFrom fn baseDelay maxRetries (S attempt) r
      | O => throw error
      end
    else
      match remaining with
      | S r =>
          sleep (baseDelay * 2 ^ Z.of_nat attempt)%Z ;;
          withRetryFrom fn baseDelay maxRetries (S attempt) r
      | O => throw error
      end).

Definition withRetry {A} (fn : M A) (maxRetries : nat) (baseDelay : Z) : M A :=
  withRetryFrom fn baseDelay maxRetries 0 maxRetries.

(** [new RateLimiter(10)]: [minInterval = 1000 / 10] *)
Definition minInterval : Z := 100.

(** [RateLimiter.wait] *)
Definition wait : M unit :=
  fun w =>
    let now := time w in
    let elapsed := (now - lastRequest w)%Z in
    let w1 := if (elapsed <? minInterval)%Z
              then snd (sleep (minInterval - elapsed) w) else w in
    (inr tt, setLastRequest (time w1) w1).

End Utils.

(* ===================================================================== *)
(** ** emailAnalyzer.js                                                   *)
(* ===================================================================== *)

Module Analyzer.
Import JsString Regex Runtime Utils.

(** the strings ['vip'], ['protected'], ... returned by [categorizeEmail] *)
Inductive Category : Type :=
| Vip | Protected | Newsletter | Promotional | Social | Forums
| Automated | Receipt | Confirmation | Unknown.

(** the configuration fields of an [EmailAnalyzer] *)
Record EmailAnalyzer := mkEmailAnalyzer {
  vipEmails : list string;
  protectedSenders : list string;
  protectedKeywords : list string }.

(** the constructor: every entry is lower-cased and trimmed *)
Definition new (vipEmails protectedSenders protectedKeywords : list string)
  : EmailAnalyzer :=
  mkEmailAnalyzer
    (map (fun email => trim (toLowerCase email)) vipEmails)
    (map (fun email => trim (toLowerCase email)) protectedSenders)
    (map (fun keyword => trim (toLowerCase keyword)) protectedKeywords).

(** truthiness of a property that is a string or undefined *)
Definition truthy (v : option string) : bool :=
  match v with
  | Some s => negb (String.eqb s "")
  | None => false
  end.

Definition automatedPatterns : list (Pattern unit) :=
  [ litI "noreply"; litI "no-reply"; litI "donotreply"; litI "automated";
    litI "notification"; litI "alert"; litI "system" ].

Definition newsletterSubjectPatterns : list (Pattern unit) :=
  [ litI "newsletter"; litI "weekly digest"; litI "daily digest";
    litI "update from"; litI "news from" ].

Definition receiptPatterns : list (Pattern unit) :=
  [ litI "receipt"; litI "payment"; litI "invoice"; litI "charged";
    litI "your purchase";
    litI "order" ~> star dot ~> litI "shipped";
    litI "order" ~> star dot ~> litI "delivered" ].

Definition confirmationPatterns : list (Pattern unit) :=
  [ litI "confirmation"; litI "confirmed"; litI "appointment";
    litI "reservation"; litI "scheduled"; litI "registration" ].

Definition categorizeEmail (this : EmailAnalyzer)
           (headers : gmap string string) (labels : list string)
           (fromEmail subject : string) : Category :=
  (* Check if this is a VIP email *)
  if arrayIncludes (vipEmails this) fromEmail then Vip
  (* Check if this is a protected sender *)
  else if arrayIncludes (protectedSenders this) fromEmail then Protected
  (* Check if subject contains protected keywords *)
  else
    let subjectLower := toLowerCase subject in
    if existsb (fun keyword => includes subjectLower keyword)
               (protectedKeywords this) then Protected
    else if truthy (headers !! "list-unsubscribe")
            || truthy (headers !! "list-id") then Newsletter
    else if arrayIncludes labels "CATEGORY_PROMOTIONS" then Promotional
    else if arrayIncludes labels "CATEGORY_SOCIAL" then Social
    else if arrayIncludes labels "CATEGORY_FORUMS" then Forums
    else if existsb (fun pattern => test pattern fromEmail) automatedPatterns
    then Automated
    else if existsb (fun pattern => test pattern subject)
                    newsletterSubjectPatterns then Newsletter
    (* Check for receipts *)
    else if existsb (fun pattern => test pattern subject) receiptPatterns
            || includes fromEmail "paypal.com"
            || includes fromEmail "invoice"
            || includes fromEmail "amazon.com" then Receipt
    (* Check for confirmations *)
    else if existsb (fun pattern => test pattern subject) confirmationPatterns
    then Confirmation
    else Unknown.

Record Analysis := mkAnalysis {
  id : string;
  from : string;
  fromEmail : string;
  subject : string;
  labels : list string;
  category : Category }.

(** the [reduce] over [message.payload.headers]: an object keyed by the
    lower-cased header names, a later header overwriting an earlier one
    (assigning a string to [__proto__] creates no property) *)
Definition headersObject (hs : list Header) : gmap string string :=
  foldl (fun acc header =>
           let key := toLowerCase (name header) in
           if String.eqb key "__proto__" then acc
           else <[key := value header]> acc) ∅ hs.

(** the body of [analyzeEmail] once the message has arrived *)
Definition analysisOf (this : EmailAnalyzer) (messageId : string)
           (hs : list Header) (labelIds : option (list string)) : Analysis :=
  let headers := headersObject hs in
  let from := default "" (headers !! "from") in
  let subject := default "" (headers !! "subject") in
  let fromEmail := extractEmail from in
  let labels := default [] labelIds in
  mkAnalysis messageId from fromEmail subject labels
             (categorizeEmail this headers labels fromEmail subject).

(** the TypeError of reading a property of undefined *)
Definition typeError : Error :=
  mkError None (Some "Cannot read properties of undefined").

(** [analyzeEmail]: [null] ([None]) when anything in the body throws *)
Definition analyzeEmail (gmail : Gmail) (this : EmailAnalyzer)
           (messageId : string) : M (option Analysis) :=
  tryCatch
    (wait ;;
     response ← withRetry (call gmail (MessagesGet messageId)) 3 1000;
     match response with
     | RMessage message =>
         match Runtime.headers message with
         | Some hs =>
             mret (Some (analysisOf this messageId hs (labelIds message)))
         | None => throw typeError
         end
     | _ => throw typeError
     end)
    (fun error =>
       console (EvConsoleError
                  ("Error analyzing message " +:+ messageId +:+ ":")
                  (message error)) ;;
       mret None).

(** [this.emailStats], the analysis results handed to the filter *)
Record EmailStats := mkEmailStats {
  total : nat;
  fromVIP : list Analysis;
  protected : list Analysis;
  newsletters : list Analysis;
  promotional : list Analysis;
  social : list Analysis;
  forums : list Analysis;
  automated : list Analysis;
  receipts : list Analysis;
  confirmations : list Analysis;
  personal : list Analysis;
  unknown : list Analysis }.

End Analyzer.

(* ===================================================================== *)
(** ** emailFilter.js                                                     *)
(* ===================================================================== *)

Module Filter.
Import JsString Regex Runtime Utils.

(** the configuration field of an [EmailFilter]; its rate limiter and
    its cache of existing filters live in the [World] *)
Record EmailFilter := mkEmailFilter { protectedSenders : list string }.

Definition new (protectedSenders : list string) : EmailFilter :=
  mkEmailFilter (map (fun email => trim (toLowerCase email)) protectedSenders).

Definition isProtectedSender (this : EmailFilter) (email : string) : bool :=
  Utils.isProtectedSender email (protectedSenders this)
  || isFromProtectedDomain email.

(** [response.data.filter || []]; a response of another kind has no
    [filter] property *)
Definition filterOf (response : Response) : list FilterRule :=
  match response with
  | RFilters (Some fs) => fs
  | _ => []
  end.

Definition getExistingFilters (gmail : Gmail) : M (list FilterRule) :=
  fun w =>
    match existingFilters w with
    | Some fs => (inr fs, w)
    | None =>
        match call gmail FiltersList w with
        | (inr response, w1) =>
            let fs := filterOf response in
            (inr fs, setExistingFilters fs w1)
        | (inl e, w1) => (inl e, w1)
        end
    end.

(** [f.criteria?.from] *)
Definition criteriaFrom (f : FilterRule) : option string :=
  match criteria f with
  | Some c => Runtime.from c
  | None => None
  end.

(** [f.criteria?.from === from] *)
Definition sameFrom (from : string) (f : FilterRule) : bool :=
  match criteriaFrom f with
  | Some s => String.eqb s from
  | None => false
  end.

Definition filterExists (gmail : Gmail) (from : string) : M bool :=
  filters ← getExistingFilters gmail;
  mret (existsb (sameFrom from) filters).

(** [l.slice(i, j)] for [i <= j] *)
Definition slice {A} (i j : nat) (l : list A) : list A :=
  take (j - i) (drop i l).

Definition batchSize : nat := 50.

(** The loop shared, word for word, by [applyLabel] and
    [archiveMessages]: [for (let i = 0; i < messageIds.length;
    i += batchSize)], each batch sent inside its own [try]/[catch].
    [fuel] bounds the number of iterations. *)
Fixpoint batchLoop (gmail : Gmail) (request : list string -> Request)
         (prefix : string) (messageIds : list string)
         (fuel i : nat) : M unit :=
  match fuel with
  | O => mret tt
  | S fuel' =>
      if (i <? length messageIds)%nat then
        let batch := slice i (i + batchSize) messageIds in
        tryCatch (call gmail (request batch) ;; mret tt)
                 (fun error =>
                    console (EvConsoleError prefix (message error))) ;;
        batchLoop gmail request prefix messageIds fuel' (i + batchSize)
      else mret tt
  end.

(** [messageIds] is [None] for null or undefined *)
Definition applyLabel (gmail : Gmail) (messageIds : option (list string))
           (labelId : string) : M unit :=
  match messageIds with
  | None => mret tt
  | Some ids =>
      if (length ids =? 0)%nat then mret tt
      else batchLoop gmail (fun batch => BatchModify batch [labelId] [])
                     "Error applying label to batch:" ids (length ids) 0
  end.

Definition archiveMessages (gmail : Gmail) (messageIds : option (list string))
  : M unit :=
  match messageIds with
  | None => mret tt
  | Some ids =>
      if (length ids =? 0)%nat then mret tt
      else batchLoop gmail (fun batch => BatchModify batch [] ["INBOX"])
                     "Error archiving batch:" ids (length ids) 0
  end.

(** *** [getFrequentSenders]

    [senderCount] is a plain object used as a map. Its own properties are
    kept in insertion order; a stored value is a number, or the string
    that [+ 1] makes of a method inherited from [Object.prototype]. *)
Inductive Count : Type :=
| Num (n : nat)
| Str.

Definition objectPrototypeMethods : list string :=
  [ "constructor"; "__defineGetter__"; "__defineSetter__"; "hasOwnProperty";
    "__lookupGetter__"; "__lookupSetter__"; "isPrototypeOf";
    "propertyIsEnumerable"; "toString"; "valueOf"; "toLocaleString" ].

Fixpoint getOwn (o : list (string * Count)) (k : string) : option Count :=
  match o with
  | [] => None
  | (k', v) :: o' => if String.eqb k' k then Some v else getOwn o' k
  end.

Fixpoint setOwn (o : list (string * Count)) (k : string) (v : Count)
  : list (string * Count) :=
  match o with
  | [] => [(k, v)]
  | (k', v') :: o' =>
      if String.eqb k' k then (k, v) :: o' else (k', v') :: setOwn o' k v
  end.

(** [senderCount[k] = (senderCount[k] || 0) + 1] *)
Definition increment (o : list (string * Count)) (k : string)
  : list (string * Count) :=
  match getOwn o k with
  | Some (Num n) => setOwn o k (Num (n + 1))
  | Some Str => setOwn o k Str
  | None =>
      (* the setter of __proto__ ignores a value that is not an object *)
      if String.eqb k "__proto__" then o
      (* an inherited method is truthy: function + 1 is a string *)
      else if arrayIncludes objectPrototypeMethods k then setOwn o k Str
      else setOwn o k (Num 1)
  end.

(** the value of a canonical array index: a decimal numeral without
    leading zero, below 2^32 - 1 *)
Definition digit (c : ascii) : option N :=
  let n := codeUnit c in
  if ((48 <=? n) && (n <=? 57))%N then Some (n - 48)%N else None.

Fixpoint decimal (s : string) (acc : N) : option N :=
  match s with
  | EmptyString => Some acc
  | String c s' =>
      match digit c with
      | Some d => decimal s' (10 * acc + d)%N
      | None => None
      end
  end.

Definition arrayIndex (k : string) : option N :=
  match k with
  | EmptyString => None
  | String c rest =>
      if Ascii.eqb c "0" && negb (String.eqb rest "") then None
      else match decimal k 0 with
           | Some n => if (n <? 4294967295)%N then Some n else None
           | None => None
           end
  end.

Fixpoint insertIndexed (e : N * (string * Count))
         (l : list (N * (string * Count))) : list (N * (string * Count)) :=
  match l with
  | [] => [e]
  | e' :: l' =>
      if (fst e <=? fst e')%N then e :: l else e' :: insertIndexed e l'
  end.

(** [Object.entries]: the array-index keys in ascending numeric order,
    then the other keys in insertion order *)
Definition entries (o : list (string * Count)) : list (string * Count) :=
  let indexed :=
    omap (fun kv => match arrayIndex (fst kv) with
                    | Some n => Some (n, kv)
                    | None => None
                    end) o in
  let others :=
    List.filter (fun kv => match arrayIndex (fst kv) with
                           | Some _ => false
                           | None => true
                           end) o in
  (map snd (foldr insertIndexed [] indexed) ++ others)%list.

(** [count >= minFrequency]; a string that is not a numeral compares as
    NaN *)
Definition atLeast (minFrequency : nat) (count : Count) : bool :=
  match count with
  | Num n => (minFrequency <=? n)%nat
  | Str => false
  end.

Definition senderCountOf (senders : list string) : list (string * Count) :=
  foldl (fun senderCount fromEmail =>
           if negb (String.eqb fromEmail "")
           then increment senderCount fromEmail
           else senderCount) [] senders.

Definition getFrequentSenders (emails : list Analyzer.Analysis)
           (minFrequency : nat) : list string :=
  let senderCount := senderCountOf (map Analyzer.fromEmail emails) in
  map fst (List.filter (fun kv => atLeast minFrequency (snd kv))
                       (entries senderCount)).

(** *** [createFilters] *)

(** the request built inside [withRetry]; reading [.id] of a label that
    is missing from [labels] throws a TypeError *)
Definition createFilter (gmail : Gmail) (labels : gmap string Label)
           (sender labelName : string) : M Response :=
  match labels !! labelName with
  | Some label =>
      call gmail (FiltersCreate sender [Runtime.id label] ["INBOX"])
  | None => throw Analyzer.typeError
  end.

(** the template [`${error.message}`] *)
Definition messageText (error : Error) : string :=
  default "undefined" (message error).

(** The body of the [for (const sender of ...)] loop of a block of
    [createFilters]. The state is [(createdCount, errors)]. *)
Definition createFilterStep (gmail : Gmail) (this : EmailFilter)
           (labels : gmap string Label) (labelName kind : string)
           (state : nat * list string) (sender : string)
  : M (nat * list string) :=
  let '(createdCount, errors) := state in
  (* Skip if filter already exists or sender is protected *)
  found ← filterExists gmail sender;
  if found : bool then mret (createdCount, errors)
  else if isProtectedSender this sender then mret (createdCount, errors)
  else
    tryCatch
      (wait ;;
       withRetry (createFilter gmail labels sender labelName) 3 1000 ;;
       mret (createdCount + 1, errors))
      (fun error =>
         mret (createdCount,
               (errors ++ [kind +:+ " filter for " +:+ sender
                           +:+ ": " +:+ messageText error])%list)).

(** One of the three blocks of [createFilters], which differ in the
    category, the label name and the wording of the error only. *)
Definition createFiltersFor (gmail : Gmail) (this : EmailFilter)
           (labels : gmap string Label) (emails : list Analyzer.Analysis)
           (labelName kind : string) (state : nat * list string)
  : M (nat * list string) :=
  if (5 <? length emails)%nat then
    forOf (createFilterStep gmail this labels labelName kind)
          (getFrequentSenders emails 3) state
  else mret state.

Definition createFilters (gmail : Gmail) (this : EmailFilter)
           (analysisResults : Analyzer.EmailStats)
           (labels : gmap string Label) : M nat :=
  (* Create filters for frequent newsletters *)
  s1 ← createFiltersFor gmail this labels
         (Analyzer.newsletters analysisResults)
         "Filtered/Newsletters" "Newsletter" (0, []);
  (* Create filters for frequent promotional *)
  s2 ← createFiltersFor gmail this labels
         (Analyzer.promotional analysisResults)
         "Filtered/Promotional" "Promotional" s1;
  (* Create filters for automated senders *)
  s3 ← createFiltersFor gmail this labels
         (Analyzer.automated analysisResults)
         "Filtered/Automated" "Automated" s2;
  let '(createdCount, errors) := s3 in
  (if (0 <? length errors)%nat then
     console (EvConsoleLog
              (String "010" "Some filters could not be created:")) ;;
     forOf (fun _ err => console (EvConsoleLog ("  - " +:+ err))) errors tt
   else mret tt) ;;
  mret createdCount.

End Filter.

(* ===================================================================== *)
(** ** checkpoint.js                                                      *)
(* ===================================================================== *)

Module Checkpoint.

(** the JSON values a checkpoint holds *)
Inductive Json : Type :=
| JNull
| JBool (b : bool)
| JNum (n : Z)
| JStr (s : string).

(** The checkpoint file. [content] is the object that [JSON.parse] makes
    of the file, [None] when the file is missing or is not JSON (either
    way [loadCheckpoint] lands in its [catch]); [writable] tells whether
    [fs.writeFile] succeeds. *)
Record Disk := mkDisk {
  content : option (gmap string Json);
  writable : bool }.

Definition M (A : Type) : Type := Disk -> (Runtime.Error + A) * Disk.

Definition defaultCheckpoint : gmap string Json :=
  <["lastProcessedDate" := JNull]>
    (<["totalProcessed" := JNum 0]> (<["lastRun" := JNull]> ∅)).

Definition loadCheckpoint : M (gmap string Json) :=
  fun disk =>
    match content disk with
    | Some checkpoint => (inr checkpoint, disk)
    (* If file doesn't exist, return default checkpoint *)
    | None => (inr defaultCheckpoint, disk)
    end.

Definition writeError : Runtime.Error :=
  Runtime.mkError None (Some "EACCES: permission denied").

Definition saveCheckpoint (checkpoint : gmap string Json) : M unit :=
  fun disk =>
    if writable disk
    then (inr tt, mkDisk (Some checkpoint) (writable disk))
    else (inl writeError, disk).

(** [{ ...current, ...newData, lastRun: new Date().toISOString() }];
    [now] is that time stamp *)
Definition updateCheckpoint (now : string) (newData : gmap string Json)
  : M (gmap string Json) :=
  fun disk =>
    match loadCheckpoint disk with
    | (inr current, disk1) =>
        let updated := <["lastRun" := JStr now]> (newData ∪ current) in
        match saveCheckpoint updated disk1 with
        | (inr _, disk2) => (inr updated, disk2)
        | (inl e, disk2) => (inl e, disk2)
        end
    | (inl e, disk1) => (inl e, disk1)
    end.

End Checkpoint.

(* ===================================================================== *)
(** ** Reference definitions                                              *)
(* ===================================================================== *)

(** Definitions that follow the words of the specification, to compare the
    code with. *)
Module Spec.
Import Runtime Utils.

(** "Splits each group's message-id list into fixed-size chunks": the
    consecutive chunks of [size] elements of [l], the last one shorter
    when the length is not a multiple; [fuel] bounds their number. *)
Fixpoint chunks {A} (size fuel : nat) (l : list A) : list (list A) :=
  match fuel with
  | O => []
  | S fuel' =>
      match l with
      | [] => []
      | _ => take size l :: chunks size fuel' (drop size l)
      end
  end.

(** the sizes of the chunks of a list of [n] elements *)
Fixpoint sizes (size fuel n : nat) : list nat :=
  match fuel with
  | O => []
  | S fuel' =>
      match n with
      | O => []
      | _ => Nat.min size n :: sizes size fuel' (n - size)
      end
  end.

(** "Each chunk call passes through RateLimiter.wait() then
    RetryPolicy.execute(...)", with the defaults of the retry policy *)
Definition chunkCall (gmail : Gmail) (r : Request) : M Response :=
  wait ;; withRetry (call gmail r) 3 1000.

(** "The existing-rule set is queried once per run and treated as
    authoritative for that run": the cache when it is filled, else the
    provider's answer to the query that fills it. *)
Definition snapshot (gmail : Gmail) (w : World) : option (list FilterRule) :=
  match existingFilters w with
  | Some fs => Some fs
  | None =>
      match gmail (trace w) FiltersList with
      | inr response => Some (Filter.filterOf response)
      | inl _ => None
      end
  end.

End Spec.

(** The vocabulary of the statements about traces. *)
Module TraceLogic.
Import Runtime.

(** the rules a stretch of the trace asks the provider to create *)
Definition creations (evs : list Event) : list Request :=
  List.filter (fun r => match r with FiltersCreate _ _ _ => true | _ => false end)
              (requests evs).

(** what a loop over batches may do: send the request of a batch, or
    print the console line of a failed batch *)
Definition batchEvent (request : list string -> Request) (prefix : string)
           (e : Event) : Prop :=
  (exists batch, e = EvCall (request batch))
  \/ (exists msg, e = EvConsoleError prefix msg).

(** an event that creates rules for the senders in [Q] only *)
Definition benign (Q : string -> Prop) (e : Event) : Prop :=
  match e with
  | EvCall (FiltersCreate sender _ _) => Q sender
  | _ => True
  end.

(** [triple Pre P m Post]: run from a world in [Pre], [m] ends, normally
    or not, in a world in [Post], having appended to the trace events of
    [P] only. *)
Definition triple {A} (Pre : World -> Prop) (P : Event -> Prop) (m : M A)
           (Post : World -> Prop) : Prop :=
  forall w, Pre w ->
    Post (snd (m w))
    /\ exists evs, trace (snd (m w)) = (trace w ++ evs)%list /\ Forall P evs.

(** a property of the world that the clock, the trace and the rate
    limiter do not bear on *)
Definition stable (I : World -> Prop) : Prop :=
  forall w, I w ->
    (forall e, I (emit e w))
    /\ (forall ms, I (advance ms w))
    /\ (forall t, I (setLastRequest t w)).

(** conditions on the world: none; the cache holds [E]; the
    existing-rule set of the run is [E] *)
Definition anyWorld : World -> Prop := fun _ => True.
Definition cached (E : list FilterRule) : World -> Prop :=
  fun w => existingFilters w = Some E.
Definition queried (gmail : Gmail) (E : list FilterRule) : World -> Prop :=
  fun w => Spec.snapshot gmail w = Some E.

(** a numeric count of [senderCount] never exceeds the number of
    occurrences seen *)
Definition countedBelow (o : list (string * Filter.Count))
           (seen : list string) : Prop :=
  forall k n, In (k, Filter.Num n) o -> n <= count_occ string_dec seen k.

End TraceLogic.

(** Concrete providers and inputs. *)
Module Samples.
Import Runtime.

(** a provider that holds the rules [existing] and accepts every
    request *)
Definition accepting (existing : list FilterRule) : Gmail :=
  fun _ r =>
    match r with
    | FiltersList => inr (RFilters (Some existing))
    | _ => inr RDone
    end.

(** a provider that is unavailable (503) for the first [n] requests and
    answers every later one *)
Definition unavailable : Error :=
  mkError (Some 503%Z) (Some "Service Unavailable").
Definition unavailableFor (n : nat) : Gmail :=
  fun history _ =>
    if (ncalls history <? n)%nat then inl unavailable else inr RDone.
Definition flaky : Gmail := unavailableFor 1.

(** a rule whose only criterion is the sender *)
Definition ruleFrom (sender : string) : FilterRule :=
  mkFilterRule (Some (mkCriteria (Some sender))).

(** ten newsletter messages from newsletter@x.com, and nothing else *)
Definition tenNewsletters : Analyzer.EmailStats :=
  Analyzer.mkEmailStats 10 [] []
    (map (fun n => Analyzer.mkAnalysis n "News <newsletter@x.com>"
                     "newsletter@x.com" "Weekly digest" []
                     Analyzer.Newsletter)
         ["m0"; "m1"; "m2"; "m3"; "m4"; "m5"; "m6"; "m7"; "m8"; "m9"])
    [] [] [] [] [] [] [] [].

End Samples.

(* ===================================================================== *)
(** ** utils.js: processBatches                                           *)
(* ===================================================================== *)

Module Batches.
Import Runtime Utils.

(** The loop of [processBatches]: [for (let i = 0; i < items.length;
    i += batchSize)], each batch handed to [processor] under [withRetry]
    with its default arguments, a pause after every batch but the last.
    [fuel] bounds the number of iterations; with [batchSize = 0] and items
    to process the loop of the source never ends, and the properties below
    assume [0 < batchSize]. *)
Fixpoint processBatchesLoop {A B} (processor : list A -> M B)
         (batchSize : nat) (delayBetweenBatches : Z) (items : list A)
         (fuel i : nat) (results : list B) : M (list B) :=
  match fuel with
  | O => mret results
  | S fuel' =>
      if (i <? length items)%nat then
        let batch := Filter.slice i (i + batchSize) items in
        result ← withRetry (processor batch) 3 1000;
        let results' := (results ++ [result])%list in
        (if (i + batchSize <? length items)%nat
         then sleep delayBetweenBatches else mret tt) ;;
        processBatchesLoop processor batchSize delayBetweenBatches items
                           fuel' (i + batchSize) results'
      else mret results
  end.

Definition processBatches {A B} (items : list A) (processor : list A -> M B)
           (batchSize : nat) (delayBetweenBatches : Z) : M (list B) :=
  processBatchesLoop processor batchSize delayBetweenBatches items
                     (length items) 0 [].

(** the events [l] with [sep] between any two of them *)
Fixpoint between (sep : Event) (l : list Event) : list Event :=
  match l with
  | [] => []
  | x :: l' =>
      match l' with
      | [] => [x]
      | _ => x :: sep :: between sep l'
      end
  end.

End Batches.

(* ===================================================================== *)
(** ** emailFilter.js: applyFiltersToExisting                             *)
(* ===================================================================== *)

Module Existing.
Import Runtime Utils Filter.

Record Action := mkAction {
  emails : list Analyzer.Analysis;
  labelId : option string;
  archive : bool }.

(** [labels[name]?.id] *)
Definition idOf (labels : gmap string Label) (name : string) : option string :=
  match labels !! name with
  | Some label => Some (Runtime.id label)
  | None => None
  end.

Definition actions (analysisResults : Analyzer.EmailStats)
           (labels : gmap string Label) : list Action :=
  [ mkAction (Analyzer.newsletters analysisResults)
             (idOf labels "Filtered/Newsletters") true;
    mkAction (Analyzer.promotional analysisResults)
             (idOf labels "Filtered/Promotional") true;
    mkAction (Analyzer.automated analysisResults)
             (idOf labels "Filtered/Automated") true;
    mkAction (Analyzer.social analysisResults)
             (idOf labels "Filtered/Social") false;
    mkAction (Analyzer.forums analysisResults)
             (idOf labels "Filtered/Forums") false;
    mkAction (Analyzer.fromVIP analysisResults) (idOf labels "VIP") false;
    mkAction (Analyzer.protected analysisResults)
             (idOf labels "Protected") false;
    mkAction (Analyzer.receipts analysisResults)
             (idOf labels "Receipts") false;
    mkAction (Analyzer.confirmations analysisResults)
             (idOf labels "Confirmations") false ].

(** the body of [for (const action of actions)] *)
Definition applyAction (gmail : Gmail) (action : Action) : M unit :=
  match labelId action with
  | Some lid =>
      if negb (String.eqb lid "") && (0 <? length (emails action))%nat then
        let messageIds := map Analyzer.id (emails action) in
        applyLabel gmail (Some messageIds) lid ;;
        if archive action then archiveMessages gmail (Some messageIds)
        else mret tt
      else mret tt
  | None => mret tt
  end.

Definition applyFiltersToExisting (gmail : Gmail)
           (analysisResults : Analyzer.EmailStats)
           (labels : gmap string Label) : M unit :=
  forOf (fun _ action => applyAction gmail action)
        (actions analysisResults labels) tt.

(** the requests one action sends when no batch is left out: the label
    requests of its chunks, then the archive requests of the same chunks *)
Definition actionRequests (action : Action) : list Request :=
  match labelId action with
  | Some lid =>
      if negb (String.eqb lid "") && (0 <? length (emails action))%nat then
        let messageIds := map Analyzer.id (emails action) in
        let cs := Spec.chunks 50 (length messageIds) messageIds in
        (map (fun c => BatchModify c [lid] []) cs
           ++ if archive action
              then map (fun c => BatchModify c [] ["INBOX"]) cs
              else [])%list
      else []
  | None => []
  end.

End Existing.

(* ===================================================================== *)
(** ** emailAnalyzer.js: the statistics                                   *)
(* ===================================================================== *)

Module Stats.
Import JsString Runtime Analyzer.

#[global] Instance Category_eq_dec : EqDecision Category.
Proof. solve_decision. Defined.

(** [this.emailStats] as the constructor leaves it *)
Definition emptyStats : EmailStats :=
  mkEmailStats 0 [] [] [] [] [] [] [] [] [] [] [].

(** [this.emailStats.total++] and the [push] of the [switch] on
    [analysis.category]; the [default] branch takes ['unknown'] *)
Definition push (stats : EmailStats) (a : Analysis) : EmailStats :=
  let t := total stats + 1 in
  match category a with
  | Vip =>
      mkEmailStats t (fromVIP stats ++ [a]) (protected stats)
        (newsletters stats) (promotional stats) (social stats) (forums stats)
        (automated stats) (receipts stats) (confirmations stats)
        (personal stats) (unknown stats)
  | Protected =>
      mkEmailStats t (fromVIP stats) (protected stats ++ [a])
        (newsletters stats) (promotional stats) (social stats) (forums stats)
        (automated stats) (receipts stats) (confirmations stats)
        (personal stats) (unknown stats)
  | Newsletter =>
      mkEmailStats t (fromVIP stats) (protected stats)
        (newsletters stats ++ [a]) (promotional stats) (social stats)
        (forums stats) (automated stats) (receipts stats)
        (confirmations stats) (personal stats) (unknown stats)
  | Promotional =>
      mkEmailStats t (fromVIP stats) (protected stats)
        (newsletters stats) (promotional stats ++ [a]) (social stats)
        (forums stats) (automated stats) (receipts stats)
        (confirmations stats) (personal stats) (unknown stats)
  | Social =>
      mkEmailStats t (fromVIP stats) (protected stats)
        (newsletters stats) (promotional stats) (social stats ++ [a])
        (forums stats) (automated stats) (receipts stats)
        (confirmations stats) (personal stats) (unknown stats)
  | Forums =>
      mkEmailStats t (fromVIP stats) (protected stats)
        (newsletters stats) (promotional stats) (social stats)
        (forums stats ++ [a]) (automated stats) (receipts stats)
        (confirmations stats) (personal stats) (unknown stats)
  | Automated =>
      mkEmailStats t (fromVIP stats) (protected stats)
        (newsletters stats) (promotional stats) (social stats)
        (forums stats) (automated stats ++ [a]) (receipts stats)
        (confirmations stats) (personal stats) (unknown stats)
  | Receipt =>
      mkEmailStats t (fromVIP stats) (protected stats)
        (newsletters stats) (promotional stats) (social stats)
        (forums stats) (automated stats) (receipts stats ++ [a])
        (confirmations stats) (personal stats) (unknown stats)
  | Confirmation =>
      mkEmailStats t (fromVIP stats) (protected stats)
        (newsletters stats) (promotional stats) (social stats)
        (forums stats) (automated stats) (receipts stats)
        (confirmations stats ++ [a]) (personal stats) (unknown stats)
  | Unknown =>
      mkEmailStats t (fromVIP stats) (protected stats)
        (newsletters stats) (promotional stats) (social stats)
        (forums stats) (automated stats) (receipts stats)
        (confirmations stats) (personal stats) (unknown stats ++ [a])
  end.

(** The [forEach] of [analyzeAllEmails] over the analyses of the batches,
    in message order; a message whose analysis is null is skipped. *)
Definition aggregate (stats : EmailStats) (analyses : list (option Analysis))
  : EmailStats :=
  foldl (fun stats analysis =>
           match analysis with
           | Some a => push stats a
           | None => stats
           end) stats analyses.

(** the analyses that are not null *)
Definition arrived (analyses : list (option Analysis)) : list Analysis :=
  omap (fun analysis => analysis) analyses.

(** the analyses of one category, in order *)
Definition ofCategory (c : Category) (l : list Analysis) : list Analysis :=
  filter (fun a => category a = c) l.

(** [Object.values(this.emailStats)] restricted to the arrays, flattened *)
Definition allEmails (stats : EmailStats) : list Analysis :=
  (fromVIP stats ++ protected stats ++ newsletters stats
     ++ promotional stats ++ social stats ++ forums stats
     ++ automated stats ++ receipts stats ++ confirmations stats
     ++ personal stats ++ unknown stats)%list.

(** a [Map] from strings to numbers, its entries in insertion order *)
Fixpoint mapGet (m : list (string * nat)) (k : string) : option nat :=
  match m with
  | [] => None
  | (k', v) :: m' => if String.eqb k' k then Some v else mapGet m' k
  end.

Fixpoint mapSet (m : list (string * nat)) (k : string) (v : nat)
  : list (string * nat) :=
  match m with
  | [] => [(k, v)]
  | (k', v') :: m' =>
      if String.eqb k' k then (k, v) :: m' else (k', v') :: mapSet m' k v
  end.

(** [senderMap.set(k, (senderMap.get(k) || 0) + 1)] for every email with a
    non-empty [fromEmail] *)
Definition senderMapOf (senders : list string) : list (string * nat) :=
  foldl (fun senderMap fromEmail =>
           if negb (String.eqb fromEmail "")
           then mapSet senderMap fromEmail
                       (default 0 (mapGet senderMap fromEmail) + 1)
           else senderMap) [] senders.

(** one step of a stable sort by decreasing count: [x], which comes
    before the elements of [l] in the array, goes in front of the first
    element whose count is not greater *)
Fixpoint insertByCount (x : string * nat) (l : list (string * nat))
  : list (string * nat) :=
  match l with
  | [] => [x]
  | y :: l' =>
      if (snd y <=? snd x)%nat then x :: l else y :: insertByCount x l'
  end.

(** [.sort((a, b) => b.count - a.count)]; the sort is stable *)
Definition sortByCount (l : list (string * nat)) : list (string * nat) :=
  foldr insertByCount [] l.

(** the pairs stand for the objects [{ email, count }] *)
Definition calculateSenderFrequency (stats : EmailStats)
  : list (string * nat) :=
  sortByCount (senderMapOf (map fromEmail (allEmails stats))).

End Stats.

(* ===================================================================== *)
(** ** emailFilter.js: labels                                             *)
(* ===================================================================== *)

(** The label operations of the provider have a runtime of their own: the
    history of label requests and console lines. *)
Module Labels.
Import JsString Runtime.

(** [response.data] of a label request *)
Record LabelData := mkLabelData { labelName : string; labelId : string }.

Inductive LabelRequest : Type :=
| LabelsCreate (name labelListVisibility messageListVisibility : string)
| LabelsList.

Inductive LabelEvent : Type :=
| LCall (r : LabelRequest)
| LConsoleError (prefix : string) (msg : option string).

(** The provider's label service, answering from the history:
    [response.data] of [labels.create], and [labels.data.labels] of
    [labels.list], which may be undefined. *)
Record LabelApi := mkLabelApi {
  labelsCreate : list LabelEvent -> string -> Error + LabelData;
  labelsList : list LabelEvent -> Error + option (list LabelData) }.

Definition L (A : Type) : Type :=
  list LabelEvent -> (Error + A) * list LabelEvent.

(** the TypeError of [error.message.includes] on an error without
    message, and of [labels.data.labels.find] on undefined *)
Definition typeError : Error :=
  mkError None (Some "Cannot read properties of undefined").

(** [labels.data.labels.find(label => label.name === labelName)] *)
Definition findByName (name : string) (labels : list LabelData)
  : option LabelData :=
  List.find (fun label => String.eqb (labelName label) name) labels.

(** [createLabel(labelName)] with the default options; the result is
    [None] when [find] returns undefined *)
Definition createLabel (api : LabelApi) (name : string)
  : L (option LabelData) :=
  fun h =>
    let h1 := (h ++ [LCall (LabelsCreate name "labelShow" "show")])%list in
    match labelsCreate api h name with
    | inr data => (inr (Some data), h1)
    | inl error =>
        match message error with
        | None => (inl typeError, h1)
        | Some m =>
            if includes m "Label name exists" then
              let h2 := (h1 ++ [LCall LabelsList])%list in
              match labelsList api h1 with
              | inr (Some labels) => (inr (findByName name labels), h2)
              | inr None => (inl typeError, h2)
              | inl e => (inl e, h2)
              end
            else (inl error, h1)
        end
    end.

Definition labelNames : list string :=
  [ "Filtered/Newsletters"; "Filtered/Promotional"; "Filtered/Automated";
    "Filtered/Social"; "Filtered/Forums"; "VIP"; "Protected"; "Receipts";
    "Confirmations"; "Personal" ].

(** the body of [for (const labelConfig of labels)]: an entry of
    [createdLabels] that holds undefined is left out of the map *)
Definition setupStep (api : LabelApi) (createdLabels : gmap string LabelData)
           (name : string) : L (gmap string LabelData) :=
  fun h =>
    match createLabel api name h with
    | (inr (Some label), h1) => (inr (<[name := label]> createdLabels), h1)
    | (inr None, h1) => (inr (delete name createdLabels), h1)
    | (inl error, h1) =>
        (inr createdLabels,
         (h1 ++ [LConsoleError ("Error creating label " +:+ name +:+ ":")
                               (message error)])%list)
    end.

Fixpoint setupLoop (api : LabelApi) (names : list string)
         (createdLabels : gmap string LabelData) : L (gmap string LabelData) :=
  match names with
  | [] => fun h => (inr createdLabels, h)
  | name :: names' =>
      fun h =>
        match setupStep api createdLabels name h with
        | (inr createdLabels', h1) => setupLoop api names' createdLabels' h1
        | (inl e, h1) => (inl e, h1)
        end
  end.

Definition setupFilteringLabels (api : LabelApi) : L (gmap string LabelData) :=
  setupLoop api labelNames ∅.

(** the map of labels as [createFilters] and [applyFiltersToExisting]
    read it *)
Definition asLabels (createdLabels : gmap string LabelData)
  : gmap string Label :=
  (fun data => mkLabel (labelId data)) <$> createdLabels.

(** the names of the labels a history asks the provider to create *)
Definition created (h : list LabelEvent) : list string :=
  omap (fun e => match e with
                 | LCall (LabelsCreate name _ _) => Some name
                 | _ => None
                 end) h.

(** the label requests of a history *)
Definition labelRequests (h : list LabelEvent) : list LabelRequest :=
  omap (fun e => match e with LCall r => Some r | _ => None end) h.

End Labels.

(** What the added properties observe in a trace. *)
Module Observe.
Import Runtime.

(** the delays of the sleeps of a stretch of the trace, in order *)
Definition sleeps (evs : list Event) : list Z :=
  omap (fun e => match e with EvSleep ms => Some ms | _ => None end) evs.

(** the world [w] after the events [evs], clock and object fields as they
    were *)
Definition extended (w : World) (evs : list Event) : World :=
  mkWorld (time w) (trace w ++ evs) (lastRequest w) (existingFilters w).

(** a key of [senderCount] that counts as a plain object would have it:
    not empty, not [__proto__], not the name of an inherited method *)
Definition ordinary (k : string) : bool :=
  negb (String.eqb k "") && negb (String.eqb k "__proto__")
  && negb (JsString.arrayIncludes Filter.objectPrototypeMethods k).

(** [returns I m]: run from a world in [I], [m] returns normally and ends
    in a world in [I] *)
Definition returns {A} (I : World -> Prop) (m : M A) : Prop :=
  forall w, I w -> (exists a, fst (m w) = inr a) /\ I (snd (m w)).

(** every character of [s] is in the class [cls] *)
Fixpoint allChars (cls : ascii -> bool) (s : string) : bool :=
  match s with
  | EmptyString => true
  | String c s' => cls c && allChars cls s'
  end.

(** [s] is empty or begins with a character outside the class [cls] *)
Definition stopsAt (cls : ascii -> bool) (s : string) : bool :=
  match s with
  | EmptyString => true
  | String c _ => negb (cls c)
  end.

(** the ids a request takes out of the inbox *)
Definition archived (r : Request) : list string :=
  match r with
  | BatchModify ids _ removeLabelIds =>
      if existsb (String.eqb "INBOX") removeLabelIds then ids else []
  | _ => []
  end.

(** the ids a request labels *)
Definition labelled (r : Request) : list string :=
  match r with
  | BatchModify ids (_ :: _) _ => ids
  | _ => []
  end.

End Observe.

(* ===================================================================== *)
(** * Properties                                                          *)
(* ===================================================================== *)

Import JsString Regex Runtime Utils.

(** ** Stepping the monad *)

Lemma run_bind {A B} (m : M A) (f : A -> M B) (w : World) :
  (m ≫= f) w = match m w with
               | (inr a, w1) => f a w1
               | (inl e, w1) => (inl e, w1)
               end.
Proof. reflexivity. Qed.

Lemma requests_app (t u : list Event) :
  requests (t ++ u) = (requests t ++ requests u)%list.
Proof. apply omap_app. Qed.


Lemma trace_advance (ms : Z) (w : World) : trace (advance ms w) = trace w.
Proof. reflexivity. Qed.

(** unfold one monadic step after the other *)
Ltac mrun :=
  repeat (rewrite run_bind;
          cbn [console sleep call ret throw tryCatch mret M_ret]).

(** ** RetryPolicy *)

Section Retry.
Variable gmail : Gmail.
Variable r : Request.



Lemma withRetryFrom_success (v : Response) (baseDelay : Z)
      (maxRetries attempt k : nat) (w : World) :
  gmail (trace w) r = inr v ->
  withRetryFrom (call gmail r) baseDelay maxRetries attempt k w
    = (inr v, emit (EvCall r) w).
Proof.
  intros Hv. destruct k; cbn [withRetryFrom]; unfold tryCatch, call;
    now rewrite Hv.
Qed.

Lemma withRetryFrom_fatal (e : Error) (baseDelay : Z)
      (maxRetries attempt k : nat) (w : World) :
  gmail (trace w) r = inl e ->
  isFatal e = true ->
  withRetryFrom (call gmail r) baseDelay maxRetries attempt k w
    = (inl e, emit (EvCall r) w).
Proof.
  intros He Hf. destruct k; cbn [withRetryFrom]; unfold tryCatch, call;
    now rewrite He, Hf.
Qed.

End Retry.



(** ** Classifier *)

Import Analyzer.

Lemma arrayIncludes_In (l : list string) (x : string) :
  arrayIncludes l x = true <-> In x l.
Proof.
  unfold arrayIncludes. rewrite existsb_exists. split.
  - intros (y & Hy & Heq). apply String.eqb_eq in Heq. now subst.
  - intros Hx. exists x. split; [exact Hx | apply String.eqb_refl].
Qed.

(** C1 (amended). [categorizeEmail] returns exactly one category; and when
    [fromEmail] is not a VIP sender, a message whose [fromEmail] is one of
    the protected senders, or whose subject contains a protected keyword
    whatever the case of the subject, is [Protected], whatever its headers,
    labels and wording. *)
Theorem categorizeEmail_protected (this : EmailAnalyzer)
        (headers : gmap string string) (labels : list string)
        (fromEmail subject : string) :
  (exists! c, categorizeEmail this headers labels fromEmail subject = c)
  /\ (~ In fromEmail (vipEmails this) ->
      In fromEmail (protectedSenders this)
      \/ (exists keyword, In keyword (protectedKeywords this)
                          /\ includes (toLowerCase subject) keyword = true) ->
      categorizeEmail this headers labels fromEmail subject = Protected).
Proof.
  split.
  - exists (categorizeEmail this headers labels fromEmail subject).
    split; [reflexivity | now intros c <-].
  - intros Hvip Hprot. unfold categorizeEmail.
    destruct (arrayIncludes (vipEmails this) fromEmail) eqn:Ev.
    { apply arrayIncludes_In in Ev. contradiction. }
    destruct (arrayIncludes (protectedSenders this) fromEmail) eqn:Ep;
      [reflexivity|].
    destruct Hprot as [Hs | (keyword & Hk & Hinc)].
    + apply arrayIncludes_In in Hs. congruence.
    + cbv zeta.
      replace (existsb (fun keyword => includes (toLowerCase subject) keyword)
                       (protectedKeywords this)) with true; [reflexivity|].
      symmetry. apply existsb_exists. now exists keyword.
Qed.

(** C1, as stated, fails twice: the classifier never consults the protected
    domains, so that mail from paypal.com is a [Receipt]; and a VIP sender
    that is also a protected sender is [Vip]. *)
Lemma categorizeEmail_not_protected :
  isFromProtectedDomain "service@paypal.com" = true
  /\ categorizeEmail (Analyzer.new [] [] []) ∅ []
       "service@paypal.com" "winner!!! claim your prize" = Receipt
  /\ categorizeEmail (Analyzer.new ["boss@corp.com"] ["boss@corp.com"] []) ∅ []
       "boss@corp.com" "winner!!! claim your prize" = Vip.
Proof. vm_compute. auto. Qed.

Lemma categorizeEmail_protected_witness :
  categorizeEmail (Analyzer.new [] ["Service@PayPal.com "] []) ∅ []
    "service@paypal.com" "winner!!! claim your prize" = Protected.
Proof.
  apply (categorizeEmail_protected (Analyzer.new [] ["Service@PayPal.com "] [])).
  - simpl. tauto.
  - left. vm_compute. auto.
Defined.

(** ** Domain matching *)

Example extractDomain_examples :
  extractDomain "alerts@billing.chase.com" = "billing.chase.com"
  /\ extractDomain "Bob <bob@X.com>" = "x.com"
  /\ extractDomain "no address here" = "".
Proof. vm_compute. repeat split. Qed.

Example extractEmail_examples :
  extractEmail "Bob <Bob@X.com>" = "bob@x.com"
  /\ extractEmail "bob@x.com (Bob)" = "bob@x.com"
  /\ extractEmail "<a<b>" = "a<b"
  /\ extractEmail "Mailer Daemon" = "mailer daemon".
Proof. vm_compute. repeat split. Qed.

(** [isFromProtectedDomain] compares whole domain labels: the domain is a
    protected domain or ends with a dot followed by one. *)
Lemma isFromProtectedDomain_iff (email : string) :
  isFromProtectedDomain email = true <->
  exists pd, In pd PROTECTED_DOMAINS
             /\ (extractDomain email = pd
                 \/ endsWith (extractDomain email) ("." +:+ pd) = true).
Proof.
  unfold isFromProtectedDomain. rewrite existsb_exists.
  split; intros (pd & Hin & H); exists pd; split; try exact Hin.
  - apply orb_true_iff in H. destruct H as [H|H]; [left|right; exact H].
    now apply String.eqb_eq.
  - apply orb_true_iff. destruct H as [H|H]; [left|right; exact H].
    now apply String.eqb_eq.
Qed.

Example isFromProtectedDomain_subdomain :
  isFromProtectedDomain "alerts@billing.chase.com" = true
  /\ isFromProtectedDomain "someone@chase.com.evil.net" = false.
Proof. vm_compute. auto. Qed.

Lemma includes_at (c : ascii) (s : string) :
  includes (String c s) "@" = Ascii.eqb "@" c || includes s "@".
Proof.
  change (includes (String c s) "@")
    with (Ascii.eqb "@" c && startsWith s "" || includes s "@").
  replace (startsWith s "") with true by (destruct s; reflexivity).
  now rewrite andb_true_r.
Qed.

Lemma exec_reDomain_none (s : string) :
  includes s "@" = false -> exec reDomain s = None.
Proof.
  induction s as [|c s IH]; [reflexivity|].
  rewrite includes_at. intros Hno.
  apply orb_false_iff in Hno. destruct Hno as (Hc & Hs).
  change (exec reDomain (String c s))
    with (match reDomain (String c s) with
          | (a, _) :: _ => Some a
          | [] => exec reDomain s
          end).
  unfold reDomain at 1, andThen, one, chr. rewrite Hc.
  now apply IH.
Qed.

(** What [isProtectedSender] does with a pattern that has no [@]: the
    whole address is the pattern, or the domain ends with the pattern. *)
Lemma isProtectedSender_bare_domain (email pattern : string) :
  includes (trim (toLowerCase pattern)) "@" = false ->
  isProtectedSender email [pattern]
  = String.eqb (toLowerCase email) (trim (toLowerCase pattern))
    || endsWith (extractDomain (toLowerCase email)) (trim (toLowerCase pattern)).
Proof.
  intros Hno. unfold isProtectedSender. cbn [existsb]. cbv zeta.
  rewrite Hno, orb_false_r.
  destruct (String.eqb (toLowerCase email) (trim (toLowerCase pattern)));
    [reflexivity|].
  cbn [negb andb orb].
  destruct (endsWith (extractDomain (toLowerCase email))
                     (trim (toLowerCase pattern))); [reflexivity|].
  assert (Hstart : startsWith (trim (toLowerCase pattern)) "@" = false).
  { destruct (trim (toLowerCase pattern)) as [|c t]; [reflexivity|].
    rewrite includes_at in Hno. apply orb_false_iff in Hno.
    change (startsWith (String c t) "@") with (Ascii.eqb "@" c && startsWith t "").
    destruct Hno as (-> & _). reflexivity. }
  rewrite Hstart. unfold extractDomain at 1.
  now rewrite (exec_reDomain_none _ Hno).
Qed.

(** C2. [isProtectedSender], on a pattern without [@], tests
    [domain.endsWith(pattern)] with no dot in front: a domain that merely
    ends with the letters of the pattern matches, although it is neither
    the pattern nor one of its subdomains. *)
Theorem isProtectedSender_suffix_without_dot :
  includes "chase.com" "@" = false
  /\ extractDomain "billing@notchase.com" = "notchase.com"
  /\ String.eqb "notchase.com" "chase.com" = false
  /\ endsWith "notchase.com" ("." +:+ "chase.com") = false
  /\ isProtectedSender "billing@notchase.com" ["chase.com"] = true
  /\ isFromProtectedDomain "billing@notchase.com" = false.
Proof. vm_compute. repeat split. Qed.

(** ** Checkpoint store *)

Section CheckpointProperties.
Import Checkpoint.

Lemma updateCheckpoint_run (now : string) (newData : gmap string Json)
      (disk : Disk) :
  writable disk = true ->
  updateCheckpoint now newData disk
  = (inr (<["lastRun" := JStr now]>
            (newData ∪ default defaultCheckpoint (content disk))),
     mkDisk (Some (<["lastRun" := JStr now]>
                     (newData ∪ default defaultCheckpoint (content disk))))
            true).
Proof.
  intros Hw. unfold updateCheckpoint, loadCheckpoint, saveCheckpoint.
  destruct (content disk); cbn; rewrite Hw; reflexivity.
Qed.

(** C8. Without a stored checkpoint [loadCheckpoint] returns the defaults
    (null date, zero count, null time stamp). [updateCheckpoint] returns
    and stores the merge: the time stamp is refreshed, a field of the
    partial update overwrites the stored one, every other stored field is
    retained; so updating with the loaded checkpoint itself changes
    nothing but the time stamp. *)
Theorem checkpoint_merge (now : string) (newData : gmap string Json)
        (disk : Disk) :
  let current := fst (loadCheckpoint disk) in
  (content disk = None ->
     current = inr defaultCheckpoint
     /\ defaultCheckpoint !! "lastProcessedDate" = Some JNull
     /\ defaultCheckpoint !! "totalProcessed" = Some (JNum 0)
     /\ defaultCheckpoint !! "lastRun" = Some JNull)
  /\ (writable disk = true ->
      exists stored updated,
        current = inr stored
        /\ updateCheckpoint now newData disk
           = (inr updated, mkDisk (Some updated) true)
        /\ updated !! "lastRun" = Some (JStr now)
        /\ (forall k v, k <> "lastRun" -> newData !! k = Some v ->
                        updated !! k = Some v)
        /\ (forall k, k <> "lastRun" -> newData !! k = None ->
                      updated !! k = stored !! k))
  /\ (writable disk = true ->
      exists stored updated,
        current = inr stored
        /\ updateCheckpoint now stored disk
           = (inr updated, mkDisk (Some updated) true)
        /\ updated !! "totalProcessed" = stored !! "totalProcessed"
        /\ updated !! "lastProcessedDate" = stored !! "lastProcessedDate"
        /\ updated = <["lastRun" := JStr now]> stored).
Proof.
  intros current. subst current.
  assert (Hload : fst (loadCheckpoint disk)
                  = inr (default defaultCheckpoint (content disk))).
  { unfold loadCheckpoint. now destruct (content disk). }
  split; [|split].
  - intros Hnone. rewrite Hload, Hnone. cbn. repeat split.
  - intros Hw. eexists _, _. split; [exact Hload|].
    split; [now apply updateCheckpoint_run|].
    split; [apply lookup_insert_eq|]. split.
    + intros k v Hk Hv. rewrite lookup_insert_ne by congruence.
      now apply lookup_union_Some_l.
    + intros k Hk Hv. rewrite lookup_insert_ne by congruence.
      now apply lookup_union_r.
  - intros Hw. eexists _, _. split; [exact Hload|].
    split; [now apply updateCheckpoint_run|].
    rewrite (idemp (∪) (default defaultCheckpoint (content disk))).
    rewrite !lookup_insert_ne by discriminate. repeat split.
Qed.

Lemma checkpoint_merge_witness :
  exists updated,
    updateCheckpoint "2026-01-02T03:04:05.000Z"
      (<["totalProcessed" := JNum 500]> ∅)
      (mkDisk (Some (<["totalProcessed" := JNum 120]>
                       (<["lastProcessedDate" := JStr "2026-01-01"]> ∅)))
              true)
    = (inr updated, mkDisk (Some updated) true)
    /\ updated !! "totalProcessed" = Some (JNum 500)
    /\ updated !! "lastProcessedDate" = Some (JStr "2026-01-01").
Proof.
  destruct (checkpoint_merge "2026-01-02T03:04:05.000Z"
              (<["totalProcessed" := JNum 500]> ∅)
              (mkDisk (Some (<["totalProcessed" := JNum 120]>
                               (<["lastProcessedDate" := JStr "2026-01-01"]> ∅)))
                      true))
    as (_ & Hmerge & _).
  destruct (Hmerge eq_refl) as (stored & updated & Hs & Hrun & _ & Hnew & Hold).
  exists updated. split; [exact Hrun|]. split.
  - apply Hnew; [discriminate | reflexivity].
  - rewrite Hold; [| discriminate | reflexivity].
    cbn in Hs. injection Hs as <-. reflexivity.
Defined.

End CheckpointProperties.

(** ** Batch mutator *)

Import Filter.

(** C9. On a null or empty list of message ids [applyLabel] and
    [archiveMessages] return at once: nothing is sent to the provider and
    the world is left as it was. *)
Theorem batch_mutator_nothing_to_do (gmail : Gmail) (labelId : string)
        (w : World) :
  applyLabel gmail None labelId w = (inr tt, w)
  /\ applyLabel gmail (Some []) labelId w = (inr tt, w)
  /\ archiveMessages gmail None w = (inr tt, w)
  /\ archiveMessages gmail (Some []) w = (inr tt, w).
Proof. repeat split. Qed.

(** ** Analysis of degenerate messages *)

Lemma headersObject_absent (hs : list Header) (k : string) :
  (forall h, In h hs -> toLowerCase (name h) <> k) ->
  headersObject hs !! k = None.
Proof.
  unfold headersObject.
  assert (Hgen : forall (acc : gmap string string),
             (forall h, In h hs -> toLowerCase (name h) <> k) ->
             foldl (fun acc header =>
                      let key := toLowerCase (name header) in
                      if String.eqb key "__proto__" then acc
                      else <[key := value header]> acc) acc hs !! k
             = acc !! k).
  { induction hs as [|h hs IH]; intros acc Hno; [reflexivity|].
    cbn [foldl]. rewrite IH by (intros; apply Hno; now right).
    cbv zeta. destruct (String.eqb _ "__proto__"); [reflexivity|].
    apply lookup_insert_ne. apply Hno. now left. }
  intros Hno. now rewrite Hgen.
Qed.

Lemma analyzeEmail_arrives (gmail : Gmail) (this : EmailAnalyzer)
      (messageId : string) (hs : list Header) (ls : option (list string))
      (w : World) :
  (forall h, gmail h (MessagesGet messageId) = inr (RMessage (mkMessage (Some hs) ls))) ->
  fst (analyzeEmail gmail this messageId w)
  = inr (Some (analysisOf this messageId hs ls)).
Proof.
  intros Hget. unfold analyzeEmail, tryCatch. mrun.
  unfold wait at 1. cbv zeta. unfold withRetry. rewrite run_bind.
  rewrite (withRetryFrom_success gmail _ (RMessage (mkMessage (Some hs) ls)))
    by apply Hget.
  reflexivity.
Qed.

(** C10. Analysis is total on degenerate input: a message without From
    header has the empty string as [from] and as [fromEmail], a message
    without Subject header has the empty subject; a From value in which
    neither regular expression finds an address is taken whole, in lower
    case; a message that arrives, whatever its headers, is analysed and
    given a category; and [analyzeEmail] never throws. *)
Theorem analyzeEmail_total (gmail : Gmail) (this : EmailAnalyzer)
        (messageId : string) (hs : list Header) (ls : option (list string))
        (w : World) :
  ((forall h, In h hs -> toLowerCase (name h) <> "from") ->
     Analyzer.from (analysisOf this messageId hs ls) = ""
     /\ fromEmail (analysisOf this messageId hs ls) = "")
  /\ ((forall h, In h hs -> toLowerCase (name h) <> "subject") ->
     subject (analysisOf this messageId hs ls) = "")
  /\ (forall fromField,
        exec reAngle fromField = None -> exec reAddress fromField = None ->
        extractEmail fromField = toLowerCase fromField)
  /\ ((forall h, gmail h (MessagesGet messageId)
                 = inr (RMessage (mkMessage (Some hs) ls))) ->
      exists c,
        fst (analyzeEmail gmail this messageId w)
        = inr (Some (mkAnalysis messageId
                       (default "" (headersObject hs !! "from"))
                       (extractEmail (default "" (headersObject hs !! "from")))
                       (default "" (headersObject hs !! "subject"))
                       (default [] ls) c)))
  /\ (exists result, fst (analyzeEmail gmail this messageId w) = inr result).
Proof.
  split; [|split; [|split; [|split]]].
  - intros Hno. unfold analysisOf. cbn.
    rewrite (headersObject_absent hs "from" Hno). split; reflexivity.
  - intros Hno. unfold analysisOf. cbn.
    now rewrite (headersObject_absent hs "subject" Hno).
  - intros fromField H1 H2. unfold extractEmail. now rewrite H1, H2.
  - intros Hget. eexists.
    rewrite (analyzeEmail_arrives gmail this messageId hs ls w Hget).
    reflexivity.
  - unfold analyzeEmail, tryCatch.
    match goal with |- context [match ?m w with _ => _ end] =>
      destruct (m w) as [[e|a] w1] end.
    + eexists. reflexivity.
    + eexists. reflexivity.
Qed.

(** ** Chunking *)

Lemma chunks_sizes {A} (size fuel : nat) (l : list A) :
  map length (Spec.chunks size fuel l) = Spec.sizes size fuel (length l).
Proof.
  revert l. induction fuel as [|fuel IH]; intros l; [reflexivity|].
  destruct l as [|x l]; [reflexivity|].
  cbn [Spec.chunks Spec.sizes map]. rewrite IH, length_take, length_drop.
  reflexivity.
Qed.

Lemma chunks_concat {A} (size fuel : nat) (l : list A) :
  0 < size -> length l <= fuel -> concat (Spec.chunks size fuel l) = l.
Proof.
  intros Hsize. revert l. induction fuel as [|fuel IH]; intros l Hlen.
  - destruct l; [reflexivity | cbn in Hlen; lia].
  - destruct l as [|x l]; [reflexivity|].
    cbn [Spec.chunks concat]. rewrite IH.
    + apply take_drop.
    + rewrite length_drop. cbn [length] in *. lia.
Qed.

Lemma chunks_bounds {A} (size fuel : nat) (l : list A) :
  0 < size ->
  Forall (fun c => 0 < length c <= size) (Spec.chunks size fuel l).
Proof.
  intros Hsize. revert l. induction fuel as [|fuel IH]; intros l;
    [constructor|].
  destruct l as [|x l]; [constructor|].
  cbn [Spec.chunks]. constructor; [|apply IH].
  rewrite length_take. cbn [length]. lia.
Qed.

(** every chunk but the last is full *)
Lemma chunks_full {A} (size fuel : nat) (l : list A) (k : nat) (c : list A) :
  Spec.chunks size fuel l !! k = Some c ->
  S k < length (Spec.chunks size fuel l) ->
  length c = size.
Proof.
  revert l k. induction fuel as [|fuel IH]; intros l k Hc Hk;
    [discriminate|].
  destruct l as [|x l]; [discriminate|].
  cbn [Spec.chunks] in *. destruct k as [|k].
  - injection Hc as <-. rewrite length_take.
    cbn [length] in Hk.
    destruct fuel as [|fuel]; [cbn in Hk; lia|].
    destruct (drop size (x :: l)) as [|y rest] eqn:Hd; [cbn in Hk; lia|].
    assert (Hlen : length (drop size (x :: l)) = S (length rest))
      by now rewrite Hd.
    rewrite length_drop in Hlen. lia.
  - cbn in Hc. apply (IH _ k Hc). cbn [length] in Hk. lia.
Qed.

Section BatchLoop.
Variable gmail : Gmail.
Variable request : list string -> Request.
Variable prefix : string.
Variable messageIds : list string.

(** The loop returns normally whatever the provider answers; it touches
    neither the clock, nor the rate limiter, nor the cache; it sends
    exactly one request for each chunk, in order. *)
Lemma batchLoop_run (fuel i : nat) (w : World) :
  exists evs,
    batchLoop gmail request prefix messageIds fuel i w
    = (inr tt, mkWorld (time w) (trace w ++ evs) (lastRequest w)
                       (existingFilters w))
    /\ Forall (TraceLogic.batchEvent request prefix) evs
    /\ requests evs
       = map request (Spec.chunks batchSize fuel (drop i messageIds)).
Proof.
  revert i w. induction fuel as [|fuel IH]; intros i w.
  - exists []. cbn. rewrite app_nil_r. destruct w. repeat split. constructor.
  - cbn [batchLoop]. destruct (Nat.ltb_spec i (length messageIds)) as [Hlt|Hge].
    + assert (Hdrop : exists x rest, drop i messageIds = x :: rest).
      { destruct (drop i messageIds) as [|x rest] eqn:Hd; [|eauto].
        apply (f_equal length) in Hd. rewrite length_drop in Hd.
        cbn in Hd. lia. }
      destruct Hdrop as (x & rest & Hdrop).
      assert (Hchunks :
                Spec.chunks batchSize (S fuel) (drop i messageIds)
                = slice i (i + batchSize) messageIds
                    :: Spec.chunks batchSize fuel
                         (drop (i + batchSize) messageIds)).
      { cbn [Spec.chunks]. rewrite Hdrop, <- Hdrop. unfold slice.
        replace (i + batchSize - i) with batchSize by lia.
        rewrite drop_drop. reflexivity. }
      rewrite Hchunks. clear Hchunks.
      set (batch := slice i (i + batchSize) messageIds).
      rewrite run_bind. unfold tryCatch at 1. rewrite run_bind.
      unfold call at 1.
      destruct (gmail (trace w) (request batch)) as [e|v].
      * cbn [console].
        destruct (IH (i + batchSize)
                     (emit (EvConsoleError prefix (message e))
                           (emit (EvCall (request batch)) w)))
          as (evs & Hrun & Hev & Hreq).
        exists (EvCall (request batch)
                  :: EvConsoleError prefix (message e) :: evs).
        rewrite Hrun. cbn [time trace lastRequest existingFilters emit].
        rewrite <- !app_assoc. split; [reflexivity|]. split.
        -- constructor; [left; eauto|]. constructor; [right; eauto|]. exact Hev.
        -- cbn. now rewrite <- Hreq.
      * cbn [mret M_ret ret].
        destruct (IH (i + batchSize) (emit (EvCall (request batch)) w))
          as (evs & Hrun & Hev & Hreq).
        exists (EvCall (request batch) :: evs).
        rewrite Hrun. cbn [time trace lastRequest existingFilters emit].
        rewrite <- !app_assoc. split; [reflexivity|]. split.
        -- constructor; [left; eauto|]. exact Hev.
        -- cbn. now rewrite <- Hreq.
    + exists []. rewrite drop_ge by lia. cbn. rewrite app_nil_r.
      destruct w. repeat split. constructor.
Qed.

End BatchLoop.

(** C6. The ids are sent in consecutive chunks of 50, in list order, one
    request per chunk: the chunks concatenate to the list, none is empty or
    longer than 50, all but the last hold exactly 50, and 123 ids make
    three requests of 50, 50 and 23 ids. This holds whatever the provider
    answers: a failed chunk does not stop the following ones, and the
    operation returns normally. *)
Theorem batch_mutator_chunks (gmail : Gmail) (ids : list string)
        (labelId : string) (w : World) :
  exists cs : list (list string),
    concat cs = ids
    /\ Forall (fun c => 0 < length c <= 50) cs
    /\ (forall k c, cs !! k = Some c -> S k < length cs -> length c = 50)
    /\ (length ids = 123 -> map length cs = [50; 50; 23])
    /\ fst (applyLabel gmail (Some ids) labelId w) = inr tt
    /\ requests (trace (snd (applyLabel gmail (Some ids) labelId w)))
       = (requests (trace w)
            ++ map (fun c => BatchModify c [labelId] []) cs)%list
    /\ fst (archiveMessages gmail (Some ids) w) = inr tt
    /\ requests (trace (snd (archiveMessages gmail (Some ids) w)))
       = (requests (trace w)
            ++ map (fun c => BatchModify c [] ["INBOX"]) cs)%list.
Proof.
  exists (Spec.chunks batchSize (length ids) ids).
  split; [apply chunks_concat; unfold batchSize; lia|].
  split; [apply (chunks_bounds batchSize); unfold batchSize; lia|].
  split; [intros k c; apply chunks_full|].
  split; [intros H123; rewrite chunks_sizes, H123; reflexivity|].
  unfold applyLabel, archiveMessages.
  destruct ids as [|x ids]; [cbn; rewrite app_nil_r; repeat split|].
  cbn [length Nat.eqb].
  destruct (batchLoop_run gmail (fun batch => BatchModify batch [labelId] [])
              "Error applying label to batch:" (x :: ids)
              (S (length ids)) 0 w) as (evs1 & Hrun1 & _ & Hreq1).
  destruct (batchLoop_run gmail (fun batch => BatchModify batch [] ["INBOX"])
              "Error archiving batch:" (x :: ids)
              (S (length ids)) 0 w) as (evs2 & Hrun2 & _ & Hreq2).
  rewrite Hrun1, Hrun2. cbn [fst snd trace].
  rewrite !requests_app, Hreq1, Hreq2. repeat split.
Qed.

Lemma batch_mutator_chunks_witness :
  exists cs : list (list string),
    map length cs = [50; 50; 23]
    /\ requests (trace (snd (applyLabel Samples.flaky (Some (repeat "m" 123))
                                        "Label_1" (mkWorld 5000 [] 0 None))))
       = map (fun c => BatchModify c ["Label_1"] []) cs.
Proof.
  destruct (batch_mutator_chunks Samples.flaky (repeat "m" 123) "Label_1"
              (mkWorld 5000 [] 0 None))
    as (cs & _ & _ & _ & Hsizes & _ & Hreq & _).
  exists cs. split; [apply Hsizes; reflexivity | exact Hreq].
Defined.

(** C5 (amended). Each chunk is sent to the provider directly and exactly
    once: the operation sleeps at no point, leaves the clock, the rate
    limiter and the cache as they were, and answers a failed chunk with a
    console line only. *)
Theorem batch_mutator_direct_calls (gmail : Gmail) (ids : list string)
        (labelId : string) (w : World) :
  (exists evs,
      applyLabel gmail (Some ids) labelId w
      = (inr tt, mkWorld (time w) (trace w ++ evs) (lastRequest w)
                         (existingFilters w))
      /\ Forall (TraceLogic.batchEvent (fun batch => BatchModify batch [labelId] [])
                                 "Error applying label to batch:") evs
      /\ requests evs
         = map (fun batch => BatchModify batch [labelId] [])
               (Spec.chunks 50 (length ids) ids))
  /\ (exists evs,
      archiveMessages gmail (Some ids) w
      = (inr tt, mkWorld (time w) (trace w ++ evs) (lastRequest w)
                         (existingFilters w))
      /\ Forall (TraceLogic.batchEvent (fun batch => BatchModify batch [] ["INBOX"])
                                 "Error archiving batch:") evs
      /\ requests evs
         = map (fun batch => BatchModify batch [] ["INBOX"])
               (Spec.chunks 50 (length ids) ids)).
Proof.
  unfold applyLabel, archiveMessages.
  destruct ids as [|x ids].
  - split; exists []; cbn; rewrite app_nil_r; destruct w;
      (split; [reflexivity | split; [constructor | reflexivity]]).
  - cbn [length Nat.eqb]. split; apply batchLoop_run.
Qed.

(** C5, as stated, fails: a chunk that the provider refuses once is not
    sent again and the rate limiter is not consulted, whereas the call
    through [RateLimiter.wait] and [withRetry] sends it twice and stamps
    the rate limiter. *)
Lemma batch_mutator_no_wait_no_retry :
  let r := BatchModify ["m1"] ["Label_1"] [] in
  let w := mkWorld 5000 [] 0 None in
  Samples.flaky [] r = inl Samples.unavailable
  /\ requests (trace (snd (applyLabel Samples.flaky (Some ["m1"]) "Label_1" w)))
     = [r]
  /\ lastRequest (snd (applyLabel Samples.flaky (Some ["m1"]) "Label_1" w)) = 0%Z
  /\ requests (trace (snd (Spec.chunkCall Samples.flaky r w))) = [r; r]
  /\ lastRequest (snd (Spec.chunkCall Samples.flaky r w)) = 5000%Z.
Proof. vm_compute. repeat split. Qed.

(** ** A program logic for the trace *)

Section Triples.
Import Spec TraceLogic Samples.
Context {A B : Type}.
Variable P : Event -> Prop.

Lemma triple_ret (I : World -> Prop) (a : A) : triple I P (mret a) I.
Proof.
  intros w HI. split; [exact HI|]. exists []. cbn.
  now rewrite app_nil_r.
Qed.

Lemma triple_throw (I : World -> Prop) (e : Error) :
  triple I P (throw e : M A) I.
Proof.
  intros w HI. split; [exact HI|]. exists []. cbn.
  now rewrite app_nil_r.
Qed.

Lemma triple_bind (Pre Mid Post : World -> Prop) (m : M A) (f : A -> M B) :
  triple Pre P m Mid ->
  (forall a, triple Mid P (f a) Post) ->
  (forall w, Mid w -> Post w) ->
  triple Pre P (m ≫= f) Post.
Proof.
  intros Hm Hf Himp w Hpre. rewrite run_bind.
  destruct (Hm w Hpre) as (Hmid & evs & Htr & Hev).
  destruct (m w) as [[e|a] w1]; cbn [snd] in *.
  - split; [now apply Himp|]. now exists evs.
  - destruct (Hf a w1 Hmid) as (Hpost & evs' & Htr' & Hev').
    split; [exact Hpost|]. exists (evs ++ evs')%list.
    rewrite Htr', Htr, <- app_assoc. split; [reflexivity|].
    now apply Forall_app.
Qed.

Lemma triple_tryCatch (Pre Mid Post : World -> Prop) (m : M A)
      (handler : Error -> M A) :
  triple Pre P m Mid ->
  (forall e, triple Mid P (handler e) Post) ->
  (forall w, Mid w -> Post w) ->
  triple Pre P (tryCatch m handler) Post.
Proof.
  intros Hm Hh Himp w Hpre. unfold tryCatch.
  destruct (Hm w Hpre) as (Hmid & evs & Htr & Hev).
  destruct (m w) as [[e|a] w1]; cbn [snd] in *.
  - destruct (Hh e w1 Hmid) as (Hpost & evs' & Htr' & Hev').
    split; [exact Hpost|]. exists (evs ++ evs')%list.
    rewrite Htr', Htr, <- app_assoc. split; [reflexivity|].
    now apply Forall_app.
  - split; [now apply Himp|]. now exists evs.
Qed.

Lemma triple_forOf (I : World -> Prop) (body : B -> A -> M B)
      (xs : list A) :
  (forall acc x, In x xs -> triple I P (body acc x) I) ->
  forall acc, triple I P (forOf body xs acc) I.
Proof.
  induction xs as [|x xs IH]; intros Hbody acc; cbn [forOf].
  - intros w HI. split; [exact HI|]. exists []. cbn. now rewrite app_nil_r.
  - intros w HI. rewrite run_bind.
    destruct (Hbody acc x (or_introl eq_refl) w HI)
      as (Hmid & evs & Htr & Hev).
    destruct (body acc x w) as [[e|acc'] w1]; cbn [snd] in *.
    + split; [exact Hmid|]. now exists evs.
    + destruct (IH (fun acc x Hx => Hbody acc x (or_intror Hx)) acc' w1 Hmid)
        as (Hpost & evs' & Htr' & Hev').
      split; [exact Hpost|]. exists (evs ++ evs')%list.
      rewrite Htr', Htr, <- app_assoc. split; [reflexivity|].
      now apply Forall_app.
Qed.

Lemma triple_pre (Pre Pre' Post : World -> Prop) (m : M A) :
  (forall w, Pre' w -> Pre w) ->
  triple Pre P m Post -> triple Pre' P m Post.
Proof. intros Himp Hm w Hpre. apply Hm. now apply Himp. Qed.

Lemma triple_post (Pre Post Post' : World -> Prop) (m : M A) :
  (forall w, Post w -> Post' w) ->
  triple Pre P m Post -> triple Pre P m Post'.
Proof.
  intros Himp Hm w Hpre. destruct (Hm w Hpre) as (Hpost & Hev).
  split; [now apply Himp | exact Hev].
Qed.

End Triples.

Section Primitives.
Import Spec TraceLogic Samples.
Variable P : Event -> Prop.
Variable I : World -> Prop.
Hypothesis I_stable : stable I.

Lemma triple_console (e : Event) : P e -> triple I P (console e) I.
Proof.
  intros He w HI. cbn. split; [now apply I_stable|].
  exists [e]. split; [reflexivity|]. now constructor.
Qed.

Lemma triple_call (gmail : Gmail) (r : Request) :
  P (EvCall r) -> triple I P (call gmail r) I.
Proof.
  intros He w HI. cbn. split; [now apply I_stable|].
  exists [EvCall r]. split; [reflexivity|]. now constructor.
Qed.

Lemma triple_sleep (ms : Z) : P (EvSleep ms) -> triple I P (sleep ms) I.
Proof.
  intros He w HI. cbn. split.
  - apply I_stable. now apply I_stable.
  - exists [EvSleep ms]. split; [reflexivity|]. now constructor.
Qed.

Lemma triple_wait : (forall ms, P (EvSleep ms)) -> triple I P wait I.
Proof.
  intros He w HI. unfold wait. cbv zeta. cbn [snd].
  destruct (time w - lastRequest w <? minInterval)%Z.
  - split.
    + apply I_stable. cbn. apply I_stable. now apply I_stable.
    + eexists [EvSleep _]. split; [reflexivity|]. constructor; [apply He|constructor].
  - split; [now apply I_stable|]. exists []. cbn. now rewrite app_nil_r.
Qed.

Lemma triple_withRetryFrom {A} (fn : M A) (baseDelay : Z)
      (maxRetries : nat) :
  (forall ms, P (EvSleep ms)) ->
  (forall delay retry n, P (EvWarnRateLimited delay retry n)) ->
  triple I P fn I ->
  forall remaining attempt,
    triple I P (withRetryFrom fn baseDelay maxRetries attempt remaining) I.
Proof.
  intros Hsleep Hwarn Hfn.
  induction remaining as [|k IH]; intros attempt; cbn [withRetryFrom];
    (apply (triple_tryCatch P I I I); [exact Hfn | | auto]);
    intros e; destruct (isFatal e); try apply triple_throw;
    destruct (isRateLimit e); try apply triple_throw.
  - apply (triple_bind P I I I); [now apply triple_console | | auto].
    intros _. apply (triple_bind P I I I); [now apply triple_sleep | | auto].
    intros _. apply triple_throw.
  - apply (triple_bind P I I I); [now apply triple_console | | auto].
    intros _. apply (triple_bind P I I I); [now apply triple_sleep | | auto].
    intros _. apply IH.
  - apply (triple_bind P I I I); [now apply triple_sleep | | auto].
    intros _. apply IH.
Qed.

End Primitives.

(** ** Frequent senders *)

Lemma In_setOwn (o : list (string * Count)) (k : string) (v : Count)
      (kv : string * Count) :
  In kv (setOwn o k v) -> kv = (k, v) \/ In kv o.
Proof.
  induction o as [|[k' v'] o IH]; cbn [setOwn].
  - intros [<-|[]]. now left.
  - destruct (String.eqb k' k).
    + intros [<-|Hin]; [now left | right; now right].
    + intros [<-|Hin]; [right; now left|].
      destruct (IH Hin) as [->|Hin']; [now left | right; now right].
Qed.

Lemma getOwn_In (o : list (string * Count)) (k : string) (v : Count) :
  getOwn o k = Some v -> In (k, v) o.
Proof.
  induction o as [|[k' v'] o IH]; cbn [getOwn]; [discriminate|].
  destruct (String.eqb_spec k' k) as [->|Hne].
  - intros [= ->]. now left.
  - intros Hget. right. now apply IH.
Qed.

Import Spec TraceLogic Samples.

Lemma countedBelow_step (o : list (string * Count)) (seen : list string)
      (x : string) :
  countedBelow o seen ->
  countedBelow (if negb (String.eqb x "") then increment o x else o)
               (seen ++ [x]).
Proof.
  intros Hinv.
  assert (Hmono : countedBelow o (seen ++ [x])).
  { intros k n Hin. rewrite count_occ_app. specialize (Hinv k n Hin). lia. }
  assert (Hself : count_occ string_dec (seen ++ [x]) x
                  = S (count_occ string_dec seen x)).
  { rewrite count_occ_app. cbn. destruct (string_dec x x); [lia | contradiction]. }
  destruct (negb (String.eqb x "")); [|exact Hmono].
  unfold increment. destruct (getOwn o x) as [[n|]|] eqn:Hget.
  - intros k m Hin. apply In_setOwn in Hin. destruct Hin as [[= -> ->]|Hin].
    + rewrite Hself. apply getOwn_In in Hget. specialize (Hinv _ _ Hget). lia.
    + now apply Hmono.
  - intros k m Hin. apply In_setOwn in Hin. destruct Hin as [[=]|Hin].
    now apply Hmono.
  - destruct (String.eqb x "__proto__"); [exact Hmono|].
    destruct (arrayIncludes objectPrototypeMethods x).
    + intros k m Hin. apply In_setOwn in Hin. destruct Hin as [[=]|Hin].
      now apply Hmono.
    + intros k m Hin. apply In_setOwn in Hin. destruct Hin as [[= -> ->]|Hin].
      * rewrite Hself. lia.
      * now apply Hmono.
Qed.

Lemma senderCountOf_below (senders : list string) :
  countedBelow (senderCountOf senders) senders.
Proof.
  unfold senderCountOf.
  assert (Hgen : forall o seen,
             countedBelow o seen ->
             countedBelow
               (foldl (fun senderCount fromEmail =>
                         if negb (String.eqb fromEmail "")
                         then increment senderCount fromEmail
                         else senderCount) o senders)
               (seen ++ senders)).
  { induction senders as [|x senders IH]; intros o seen Hinv.
    - now rewrite app_nil_r.
    - cbn [foldl].
      replace (seen ++ x :: senders)%list with ((seen ++ [x]) ++ senders)%list
        by now rewrite <- app_assoc.
      apply IH. now apply countedBelow_step. }
  apply (Hgen [] []). intros k n [].
Qed.

Lemma In_insertIndexed (e x : N * (string * Count))
      (l : list (N * (string * Count))) :
  In e (insertIndexed x l) -> e = x \/ In e l.
Proof.
  induction l as [|y l IH]; cbn [insertIndexed].
  - intros [<-|[]]. now left.
  - destruct (fst x <=? fst y)%N.
    + intros [<-|Hin]; [now left | now right].
    + intros [<-|Hin]; [right; now left|].
      destruct (IH Hin) as [->|Hin']; [now left | right; now right].
Qed.

Lemma In_entries (o : list (string * Count)) (kv : string * Count) :
  In kv (entries o) -> In kv o.
Proof.
  unfold entries. rewrite in_app_iff. intros [Hin|Hin].
  - apply in_map_iff in Hin. destruct Hin as ([n kv'] & Heq & Hin).
    cbn in Heq. subst kv'.
    assert (Hsorted : forall l e,
               In e (foldr insertIndexed [] l) -> In e l).
    { induction l as [|y l IH]; cbn [foldr]; [now intros e|].
      intros e He. apply In_insertIndexed in He.
      destruct He as [->|He]; [now left | right; now apply IH]. }
    apply Hsorted in Hin. apply list_elem_of_In in Hin.
    apply list_elem_of_omap in Hin. destruct Hin as (kv' & Hin' & Hsome).
    destruct (arrayIndex (fst kv')); [|discriminate].
    injection Hsome as _ ->. now apply list_elem_of_In.
  - apply filter_In in Hin. tauto.
Qed.

(** a sender that [getFrequentSenders] returns occurs at least
    [minFrequency] times among the [fromEmail] fields *)
Lemma getFrequentSenders_frequent (emails : list Analysis)
      (minFrequency : nat) (s : string) :
  In s (getFrequentSenders emails minFrequency) ->
  minFrequency <= count_occ string_dec (map fromEmail emails) s.
Proof.
  unfold getFrequentSenders. intros Hin.
  apply in_map_iff in Hin. destruct Hin as ([k v] & Hk & Hin).
  cbn in Hk. subst k.
  apply filter_In in Hin. destruct Hin as (Hin & Hat). cbn in Hat.
  apply In_entries in Hin. destruct v as [n|]; [|discriminate].
  apply Nat.leb_le in Hat.
  pose proof (senderCountOf_below (map fromEmail emails) s n Hin). lia.
Qed.

(** ** Rule synthesizer *)

Section CreateFilters.
Import Spec TraceLogic Samples.
Variable gmail : Gmail.
Variable this : EmailFilter.
Variable labels : gmap string Label.

Lemma anyWorld_stable : stable anyWorld.
Proof. intros w _. repeat split. Qed.

Lemma cached_stable (E : list FilterRule) : stable (cached E).
Proof. intros w Hw. repeat split; intros; exact Hw. Qed.

Lemma cached_queried (E : list FilterRule) (w : World) :
  cached E w -> queried gmail E w.
Proof. unfold cached, queried, snapshot. now intros ->. Qed.

(** the attempt to create one rule sends nothing but requests to create
    a rule for that sender *)
Lemma createAttempt_triple (I : World -> Prop) (Q : string -> Prop)
      (sender labelName : string) (ok failed : Error -> nat * list string)
      (done : nat * list string) :
  stable I -> Q sender ->
  triple I (benign Q)
    (tryCatch
       (wait ;;
        withRetry (createFilter gmail labels sender labelName) 3 1000 ;;
        mret done)
       (fun error => mret (failed error))) I.
Proof.
  intros HI HQ.
  apply (triple_tryCatch _ I I I); [| intros e; apply triple_ret | auto].
  apply (triple_bind _ I I I); [apply triple_wait; [exact HI | now intros] | | auto].
  intros _.
  apply (triple_bind _ I I I); [| intros _; apply triple_ret | auto].
  apply triple_withRetryFrom; [exact HI | now intros | now intros |].
  unfold createFilter. destruct (labels !! labelName).
  - apply triple_call; [exact HI | exact HQ].
  - apply triple_throw.
Qed.

(** with the existing rules [E] in the cache or about to be fetched,
    [filterExists] answers from [E] and leaves [E] in the cache *)
Lemma filterExists_run (E : list FilterRule) (sender : string) (w : World) :
  queried gmail E w ->
  exists evs,
    filterExists gmail sender w
    = (inr (existsb (sameFrom sender) E),
       mkWorld (time w) (trace w ++ evs) (lastRequest w) (Some E))
    /\ (evs = [] \/ evs = [EvCall FiltersList]).
Proof.
  unfold queried, snapshot, filterExists. intros Hq. rewrite run_bind.
  unfold getExistingFilters, call.
  destruct (existingFilters w) as [fs|] eqn:Hc.
  - injection Hq as ->. exists []. split; [|now left].
    cbn. rewrite app_nil_r. destruct w; cbn in *. now subst.
  - destruct (gmail (trace w) FiltersList) as [e|response]; [discriminate|].
    injection Hq as <-. exists [EvCall FiltersList]. split; [|now right].
    reflexivity.
Qed.

Lemma filterExists_any (Q : string -> Prop) (sender : string) :
  triple anyWorld (benign Q) (filterExists gmail sender) anyWorld.
Proof.
  intros w _. split; [exact Logic.I|].
  unfold filterExists. rewrite run_bind. unfold getExistingFilters, call.
  destruct (existingFilters w) as [fs|].
  - exists []. cbn. now rewrite app_nil_r.
  - destruct (gmail (trace w) FiltersList) as [e|response];
      exists [EvCall FiltersList]; (split; [reflexivity|]);
      repeat constructor.
Qed.

Lemma createFilterStep_any (Q : string -> Prop) (labelName kind : string)
      (state : nat * list string) (sender : string) :
  Q sender ->
  triple anyWorld (benign Q)
         (createFilterStep gmail this labels labelName kind state sender)
         anyWorld.
Proof.
  intros HQ. destruct state as [createdCount errors]. unfold createFilterStep.
  apply (triple_bind _ anyWorld anyWorld anyWorld);
    [apply filterExists_any | | auto].
  intros [|]; [apply triple_ret|].
  destruct (Filter.isProtectedSender this sender); [apply triple_ret|].
  apply (createAttempt_triple anyWorld Q sender labelName
           (fun _ => (createdCount, errors))
           (fun error => (createdCount, _)));
    [apply anyWorld_stable | exact HQ].
Qed.

(** when one of the rules of [E] has the sender [s] as its [from], the
    loop body sends no request to create a rule for [s] *)
Lemma createFilterStep_queried (E : list FilterRule) (s : string)
      (labelName kind : string) (state : nat * list string)
      (sender : string) :
  existsb (sameFrom s) E = true ->
  triple (queried gmail E) (benign (fun sender' => sender' <> s))
         (createFilterStep gmail this labels labelName kind state sender)
         (queried gmail E).
Proof.
  intros Hs w Hq. destruct state as [createdCount errors].
  unfold createFilterStep. rewrite run_bind.
  destruct (filterExists_run E sender w Hq) as (evs0 & Hrun & Hevs0).
  rewrite Hrun. clear Hrun.
  set (w1 := mkWorld (time w) (trace w ++ evs0) (lastRequest w) (Some E)).
  assert (Hc1 : cached E w1) by reflexivity.
  assert (Hev0 : Forall (benign (fun sender' => sender' <> s)) evs0).
  { destruct Hevs0 as [->| ->]; repeat constructor. }
  destruct (existsb (sameFrom sender) E) eqn:Hfound.
  - cbn. split; [now apply cached_queried|]. now exists evs0.
  - assert (Hne : sender <> s) by (intros ->; congruence).
    destruct (Filter.isProtectedSender this sender).
    + cbn. split; [now apply cached_queried|]. now exists evs0.
    + destruct (createAttempt_triple (cached E) (fun sender' => sender' <> s)
                  sender labelName
                  (fun _ => (createdCount, errors))
                  (fun error =>
                     (createdCount,
                      (errors ++ [kind +:+ " filter for " +:+ sender
                                  +:+ ": " +:+ messageText error])%list))
                  (createdCount + 1, errors)
                  (cached_stable E) Hne w1 Hc1)
        as (Hpost & evs1 & Htr & Hev1).
      split; [now apply cached_queried|].
      exists (evs0 ++ evs1)%list. rewrite Htr. subst w1. cbn [trace].
      rewrite <- app_assoc. split; [reflexivity|]. now apply Forall_app.
Qed.

Lemma createFiltersFor_triple (I : World -> Prop) (P : Event -> Prop)
      (emails : list Analysis) (labelName kind : string)
      (state : nat * list string) :
  (forall st sender,
      (5 < length emails)%nat ->
      In sender (getFrequentSenders emails 3) ->
      triple I P (createFilterStep gmail this labels labelName kind st sender) I) ->
  triple I P (createFiltersFor gmail this labels emails labelName kind state) I.
Proof.
  intros Hstep. unfold createFiltersFor.
  destruct (Nat.ltb_spec 5 (length emails)) as [Hlen|Hlen].
  - apply triple_forOf. intros acc x Hx. now apply Hstep.
  - apply triple_ret.
Qed.

(** the report of the errors, at the end of [createFilters] *)
Lemma report_triple (Q : string -> Prop) (s3 : nat * list string) :
  triple anyWorld (benign Q)
    (let '(createdCount, errors) := s3 in
     (if (0 <? length errors)%nat then
        console (EvConsoleLog
              (String "010" "Some filters could not be created:")) ;;
        forOf (fun _ err => console (EvConsoleLog ("  - " +:+ err))) errors tt
      else mret tt) ;;
     (mret createdCount : M nat)) anyWorld.
Proof.
  destruct s3 as [createdCount errors].
  apply (triple_bind _ anyWorld anyWorld anyWorld);
    [| intros _; apply triple_ret | auto].
  destruct (0 <? length errors)%nat; [|apply triple_ret].
  apply (triple_bind _ anyWorld anyWorld anyWorld);
    [apply triple_console; [apply anyWorld_stable | exact Logic.I] | | auto].
  intros _. apply triple_forOf. intros acc err _.
  apply triple_console; [apply anyWorld_stable | exact Logic.I].
Qed.

Lemma createFilters_triple (I : World -> Prop) (Q : string -> Prop)
      (analysisResults : EmailStats) :
  (forall emails labelName kind st sender,
      In emails [newsletters analysisResults; promotional analysisResults;
                 automated analysisResults] ->
      (5 < length emails)%nat ->
      In sender (getFrequentSenders emails 3) ->
      triple I (benign Q)
             (createFilterStep gmail this labels labelName kind st sender) I) ->
  triple I (benign Q) (createFilters gmail this analysisResults labels)
         anyWorld.
Proof.
  intros Hstep. unfold createFilters.
  apply (triple_bind _ I I anyWorld); [| | now intros].
  { apply createFiltersFor_triple. intros st sender Hlen Hin.
    apply (Hstep (newsletters analysisResults)); [cbn; tauto | exact Hlen | exact Hin]. }
  intros s1. apply (triple_bind _ I I anyWorld); [| | now intros].
  { apply createFiltersFor_triple. intros st sender Hlen Hin.
    apply (Hstep (promotional analysisResults)); [cbn; tauto | exact Hlen | exact Hin]. }
  intros s2. apply (triple_bind _ I I anyWorld); [| | now intros].
  { apply createFiltersFor_triple. intros st sender Hlen Hin.
    apply (Hstep (automated analysisResults)); [cbn; tauto | exact Hlen | exact Hin]. }
  intros s3. apply (triple_pre _ anyWorld I anyWorld); [now intros|].
  apply report_triple.
Qed.

End CreateFilters.

Import Spec TraceLogic Samples.

Lemma existsb_sameFrom (E : list FilterRule) (s : string) :
  existsb (sameFrom s) E = true <->
  exists f, In f E /\ criteriaFrom f = Some s.
Proof.
  rewrite existsb_exists. unfold sameFrom.
  split; intros (f & Hin & Hf); exists f; (split; [exact Hin|]).
  - destruct (criteriaFrom f) as [s'|]; [|discriminate].
    apply String.eqb_eq in Hf. now subst.
  - rewrite Hf. apply String.eqb_refl.
Qed.

Lemma benign_In (Q : string -> Prop) (evs : list Event) (s : string)
      (add rem : list string) :
  Forall (benign Q) evs -> In (EvCall (FiltersCreate s add rem)) evs -> Q s.
Proof.
  intros Hall Hin. rewrite Forall_forall in Hall.
  exact (Hall _ (proj2 (list_elem_of_In _ _) Hin)).
Qed.

(** C3 (amended). [createFilters] sends no request to create a rule for a
    sender that is, character for character, the [from] of a rule of the
    existing-rule set of the run. *)
Theorem createFilters_no_duplicate (gmail : Gmail) (this : EmailFilter)
        (analysisResults : EmailStats) (labels : gmap string Label)
        (w : World) (E : list FilterRule) (s : string) :
  snapshot gmail w = Some E ->
  (exists f, In f E /\ criteriaFrom f = Some s) ->
  exists evs,
    trace (snd (createFilters gmail this analysisResults labels w))
    = (trace w ++ evs)%list
    /\ forall add rem, ~ In (EvCall (FiltersCreate s add rem)) evs.
Proof.
  intros Hq Hs. apply existsb_sameFrom in Hs.
  destruct (createFilters_triple gmail this labels (queried gmail E)
              (fun sender' => sender' <> s) analysisResults) with (w := w)
    as (_ & evs & Htr & Hev).
  - intros emails labelName kind st sender _ _ _.
    now apply createFilterStep_queried.
  - exact Hq.
  - exists evs. split; [exact Htr|]. intros add rem Hin.
    now apply (benign_In _ _ _ _ _ Hev Hin).
Qed.

Lemma createFilters_no_duplicate_witness :
  exists evs,
    trace (snd (createFilters (accepting [ruleFrom "newsletter@x.com"])
                  (Filter.new []) tenNewsletters
                  (<["Filtered/Newsletters" := mkLabel "Label_1"]> ∅)
                  (mkWorld 5000 [] 0 None)))
    = ([] ++ evs)%list
    /\ forall add rem, ~ In (EvCall (FiltersCreate "newsletter@x.com" add rem)) evs.
Proof.
  apply (createFilters_no_duplicate (accepting [ruleFrom "newsletter@x.com"])
           (Filter.new []) tenNewsletters
           (<["Filtered/Newsletters" := mkLabel "Label_1"]> ∅)
           (mkWorld 5000 [] 0 None) [ruleFrom "newsletter@x.com"]).
  - reflexivity.
  - exists (ruleFrom "newsletter@x.com"). split; [now left | reflexivity].
Defined.

(** C3, as stated, fails: an existing rule whose [from] differs from the
    candidate in case only does not prevent the creation of a rule for the
    candidate. *)
Lemma createFilters_duplicate_up_to_case :
  toLowerCase "Newsletter@X.com" = toLowerCase "newsletter@x.com"
  /\ snapshot (accepting [ruleFrom "Newsletter@X.com"]) (mkWorld 5000 [] 0 None)
     = Some [ruleFrom "Newsletter@X.com"]
  /\ requests
       (trace (snd (createFilters (accepting [ruleFrom "Newsletter@X.com"])
                      (Filter.new []) tenNewsletters
                      (<["Filtered/Newsletters" := mkLabel "Label_1"]> ∅)
                      (mkWorld 5000 [] 0 None))))
     = [FiltersList; FiltersCreate "newsletter@x.com" ["Label_1"] ["INBOX"]].
Proof. vm_compute. repeat split. Qed.

Lemma wait_run (w : World) :
  exists t evs,
    wait w = (inr tt, mkWorld t (trace w ++ evs) t (existingFilters w))
    /\ requests evs = [].
Proof.
  unfold wait. cbv zeta. destruct (time w - lastRequest w <? minInterval)%Z.
  - eexists _, [EvSleep _]. split; reflexivity.
  - exists (time w), []. cbn. rewrite app_nil_r. split; reflexivity.
Qed.

Lemma creations_app (t u : list Event) :
  creations (t ++ u) = (creations t ++ creations u)%list.
Proof. unfold creations. now rewrite requests_app, List.filter_app. Qed.

Section TenNewsletters.
Variable gmail : Gmail.
Variable this : EmailFilter.
Variable labels : gmap string Label.
Variable label : Label.
Variable analysisResults : EmailStats.
Variable E : list FilterRule.

Hypothesis ten : length (newsletters analysisResults) = 10.
Hypothesis same : forall a, In a (newsletters analysisResults) ->
                            fromEmail a = "newsletter@x.com".
Hypothesis no_promotional : promotional analysisResults = [].
Hypothesis no_automated : automated analysisResults = [].
Hypothesis unprotected : Filter.isProtectedSender this "newsletter@x.com" = false.
Hypothesis has_label : labels !! "Filtered/Newsletters" = Some label.
Hypothesis accepts :
  forall h add rem, exists v, gmail h (FiltersCreate "newsletter@x.com" add rem) = inr v.

Lemma tenNewsletters_frequent :
  getFrequentSenders (newsletters analysisResults) 3 = ["newsletter@x.com"].
Proof.
  unfold getFrequentSenders.
  assert (Hmap : map fromEmail (newsletters analysisResults)
                 = repeat "newsletter@x.com" 10).
  { rewrite <- ten, <- (length_map fromEmail).
    apply Forall_eq_repeat. apply Forall_forall. intros x Hx.
    apply list_elem_of_In, in_map_iff in Hx.
    destruct Hx as (a & <- & Ha). symmetry. now apply same. }
  rewrite Hmap. reflexivity.
Qed.

(** the run of [createFilters] on the ten newsletters *)
Lemma tenNewsletters_run (w : World) :
  snapshot gmail w = Some E ->
  exists w',
    createFilters gmail this analysisResults labels w
    = (inr (if existsb (sameFrom "newsletter@x.com") E then 0 else 1), w')
    /\ creations (trace w')
       = (creations (trace w)
            ++ if existsb (sameFrom "newsletter@x.com") E then []
               else [FiltersCreate "newsletter@x.com" [Runtime.id label] ["INBOX"]])%list.
Proof.
  intros Hq. unfold createFilters. rewrite run_bind.
  unfold createFiltersFor at 1. rewrite ten. cbn [Nat.ltb Nat.leb].
  rewrite tenNewsletters_frequent. cbn [forOf]. rewrite run_bind.
  unfold createFilterStep. rewrite run_bind.
  destruct (filterExists_run gmail E "newsletter@x.com" w Hq) as (evs0 & Hrun & Hevs0).
  rewrite Hrun. clear Hrun.
  assert (Hc0 : creations evs0 = []) by (destruct Hevs0 as [->| ->]; reflexivity).
  rewrite no_promotional, no_automated.
  destruct (existsb (sameFrom "newsletter@x.com") E).
  - eexists. split; [reflexivity|]. cbn [trace].
    now rewrite creations_app, Hc0.
  - rewrite unprotected. unfold tryCatch at 1. rewrite run_bind.
    match goal with |- context [wait ?w1] =>
      destruct (wait_run w1) as (t & evs1 & Hwait & Hreq1); rewrite Hwait;
      clear Hwait end.
    cbn [trace existingFilters]. rewrite run_bind. unfold withRetry.
    unfold createFilter. rewrite has_label.
    match goal with |- context [withRetryFrom (call gmail ?r) _ _ _ _ ?w2] =>
      destruct (accepts (trace w2) [Runtime.id label] ["INBOX"]) as (v & Hv);
      rewrite (withRetryFrom_success gmail r v _ _ _ _ w2 Hv) end.
    eexists. split; [reflexivity|]. cbn [trace emit].
    rewrite !creations_app, Hc0.
    replace (creations evs1) with (@nil Request)
      by (unfold creations; now rewrite Hreq1).
    now rewrite !app_nil_r.
Qed.

End TenNewsletters.

(** [Object.entries] lists the array-index keys first; an inherited
    method name or [__proto__] is never counted *)
Example getFrequentSenders_example :
  getFrequentSenders
    (map (fun s => mkAnalysis "m" s s "" [] Unknown)
         ["a"; "b"; "a"; "12"; "a"; "b"; "7"; "7"; "7"; "12"; "12"; "b";
          "constructor"; "constructor"; "constructor";
          "__proto__"; "__proto__"; "__proto__"; ""; ""; ""])
    3
  = ["7"; "12"; "a"; "b"].
Proof. vm_compute. reflexivity. Qed.

(** C7. Every request to create a rule is for a sender that occurs at
    least three times in one of the categories newsletters, promotional and
    automated, that category holding more than five messages. On ten
    newsletter messages from newsletter@x.com and nothing else, with the
    sender unprotected, the label at hand and a provider that accepts the
    request, exactly one rule is created for the sender when no existing
    rule has it as [from], and none when one has. *)
Theorem createFilters_candidates (gmail : Gmail) (this : EmailFilter)
        (analysisResults : EmailStats) (labels : gmap string Label)
        (w : World) :
  (exists evs,
      trace (snd (createFilters gmail this analysisResults labels w))
      = (trace w ++ evs)%list
      /\ forall s add rem,
          In (EvCall (FiltersCreate s add rem)) evs ->
          exists emails,
            In emails [newsletters analysisResults;
                       promotional analysisResults;
                       automated analysisResults]
            /\ 5 < length emails
            /\ 3 <= count_occ string_dec (map fromEmail emails) s)
  /\ (forall (E : list FilterRule) (label : Label),
        length (newsletters analysisResults) = 10 ->
        (forall a, In a (newsletters analysisResults) ->
                   fromEmail a = "newsletter@x.com") ->
        promotional analysisResults = [] ->
        automated analysisResults = [] ->
        Filter.isProtectedSender this "newsletter@x.com" = false ->
        labels !! "Filtered/Newsletters" = Some label ->
        (forall h add rem,
            exists v, gmail h (FiltersCreate "newsletter@x.com" add rem) = inr v) ->
        snapshot gmail w = Some E ->
        let run := createFilters gmail this analysisResults labels w in
        ((forall f, In f E -> criteriaFrom f <> Some "newsletter@x.com") ->
           fst run = inr 1
           /\ creations (trace (snd run))
              = (creations (trace w)
                   ++ [FiltersCreate "newsletter@x.com" [Runtime.id label]
                                     ["INBOX"]])%list)
        /\ ((exists f, In f E /\ criteriaFrom f = Some "newsletter@x.com") ->
           fst run = inr 0
           /\ creations (trace (snd run)) = creations (trace w))).
Proof.
  split.
  - set (Q := fun s : string =>
                exists emails,
                  In emails [newsletters analysisResults;
                             promotional analysisResults;
                             automated analysisResults]
                  /\ 5 < length emails
                  /\ 3 <= count_occ string_dec (map fromEmail emails) s).
    destruct (createFilters_triple gmail this labels anyWorld Q analysisResults)
      with (w := w) as (_ & evs & Htr & Hev).
    + intros emails labelName kind st sender Hin Hlen Hfreq.
      apply createFilterStep_any. exists emails.
      split; [exact Hin|]. split; [exact Hlen|].
      now apply getFrequentSenders_frequent.
    + exact Logic.I.
    + exists evs. split; [exact Htr|]. intros s add rem Hin.
      exact (benign_In Q evs s add rem Hev Hin).
  - intros E label Hten Hsame Hpromo Hauto Hunprot Hlabel Haccepts Hq run.
    destruct (tenNewsletters_run gmail this labels label analysisResults E
                Hten Hsame Hpromo Hauto Hunprot Hlabel Haccepts w Hq)
      as (w' & Hrun & Hcreated).
    subst run. rewrite Hrun. cbn [fst snd]. rewrite Hcreated. split.
    + intros Hnone.
      destruct (existsb (sameFrom "newsletter@x.com") E) eqn:Hex.
      * apply existsb_sameFrom in Hex. destruct Hex as (f & Hin & Hf).
        now destruct (Hnone f Hin).
      * split; reflexivity.
    + intros Hsome. apply existsb_sameFrom in Hsome. rewrite Hsome.
      split; [reflexivity | apply app_nil_r].
Qed.

Lemma createFilters_candidates_witness :
  let labels : gmap string Label :=
    <["Filtered/Newsletters" := mkLabel "Label_1"]> ∅ in
  let w := mkWorld 5000 [] 0 None in
  (fst (createFilters (accepting []) (Filter.new []) tenNewsletters labels w)
   = inr 1
   /\ creations (trace (snd (createFilters (accepting []) (Filter.new [])
                               tenNewsletters labels w)))
      = [FiltersCreate "newsletter@x.com" ["Label_1"] ["INBOX"]])
  /\ (fst (createFilters (accepting [ruleFrom "newsletter@x.com"])
             (Filter.new []) tenNewsletters labels w)
      = inr 0
      /\ creations (trace (snd (createFilters
                                  (accepting [ruleFrom "newsletter@x.com"])
                                  (Filter.new []) tenNewsletters labels w)))
         = []).
Proof.
  intros labels w. split.
  - destruct (createFilters_candidates (accepting []) (Filter.new [])
                tenNewsletters labels w) as (_ & Hten).
    apply (Hten [] (mkLabel "Label_1")); try reflexivity.
    + intros a Ha. cbn in Ha.
      repeat (destruct Ha as [<-|Ha]; [reflexivity|]). destruct Ha.
    + intros h add rem. exists RDone. reflexivity.
    + intros f [].
  - destruct (createFilters_candidates (accepting [ruleFrom "newsletter@x.com"])
                (Filter.new []) tenNewsletters labels w) as (_ & Hten).
    apply (Hten [ruleFrom "newsletter@x.com"] (mkLabel "Label_1"));
      try reflexivity.
    + intros a Ha. cbn in Ha.
      repeat (destruct Ha as [<-|Ha]; [reflexivity|]). destruct Ha.
    + intros h add rem. exists RDone. reflexivity.
    + exists (ruleFrom "newsletter@x.com"). split; [now left | reflexivity].
Defined.

Lemma analyzeEmail_total_witness :
  Analyzer.from (analysisOf (Analyzer.new [] [] []) "m1"
                            [mkHeader "Subject" "Hello"] None) = ""
  /\ fromEmail (analysisOf (Analyzer.new [] [] []) "m1"
                           [mkHeader "Subject" "Hello"] None) = ""
  /\ extractEmail "Undisclosed Recipients" = "undisclosed recipients".
Proof.
  destruct (analyzeEmail_total (accepting []) (Analyzer.new [] [] []) "m1"
              [mkHeader "Subject" "Hello"] None (mkWorld 5000 [] 0 None))
    as (Hfrom & _ & Hextract & _).
  destruct Hfrom as (H1 & H2).
  - intros h [<-|[]]. discriminate.
  - split; [exact H1|]. split; [exact H2|].
    apply (Hextract "Undisclosed Recipients"); reflexivity.
Defined.

(* ===================================================================== *)
(** * Further properties                                                  *)
(* ===================================================================== *)

Import Observe Batches Existing Stats.

(** ** RateLimiter *)



(** ** RetryPolicy: the back-off schedule *)

Lemma sleeps_app (t u : list Event) :
  sleeps (t ++ u) = (sleeps t ++ sleeps u)%list.
Proof. apply omap_app. Qed.

Section Backoff.
Variable gmail : Gmail.
Variable r : Request.
Variable e : Error.
Variable baseDelay : Z.
Variable maxRetries : nat.
Hypothesis always : forall h, gmail h r = inl e.
Hypothesis retryable : isFatal e = false.

Lemma withRetryFrom_rate_limited :
  isRateLimit e = true ->
  forall remaining attempt w,
    exists w' evs,
      withRetryFrom (call gmail r) baseDelay maxRetries attempt remaining w
      = (inl e, w')
      /\ trace w' = (trace w ++ evs)%list
      /\ sleeps evs
         = map (fun k => (baseDelay * 2 ^ (Z.of_nat k + 2))%Z)
               (seq attempt (S remaining))
      /\ requests evs = repeat r (S remaining).
Proof.
  intros Hrl. induction remaining as [|k IH]; intros attempt w.
  - cbn [withRetryFrom]. unfold tryCatch, call. rewrite always, retryable, Hrl.
    mrun.
    eexists _, [EvCall r;
                EvWarnRateLimited (baseDelay * 2 ^ (Z.of_nat attempt + 2))
                                  (attempt + 1) maxRetries;
                EvSleep (baseDelay * 2 ^ (Z.of_nat attempt + 2))].
    split; [reflexivity|].
    split; [cbn [trace emit advance]; now rewrite <- !app_assoc|].
    split; reflexivity.
  - cbn [withRetryFrom]. unfold tryCatch at 1. unfold call at 1.
    rewrite always, retryable, Hrl. mrun.
    match goal with |- context [withRetryFrom _ _ _ _ _ ?w1] =>
      destruct (IH (S attempt) w1) as (w' & evs & Hrun & Htr & Hsl & Hreq) end.
    rewrite Hrun.
    exists w', (EvCall r
                  :: EvWarnRateLimited (baseDelay * 2 ^ (Z.of_nat attempt + 2))
                                       (attempt + 1) maxRetries
                  :: EvSleep (baseDelay * 2 ^ (Z.of_nat attempt + 2)) :: evs).
    split; [reflexivity|].
    split; [rewrite Htr; cbn [trace emit advance]; now rewrite <- !app_assoc|].
    split.
    + cbn [sleeps omap]. cbn. f_equal. exact Hsl.
    + cbn. f_equal. exact Hreq.
Qed.

Lemma withRetryFrom_plain_failure :
  isRateLimit e = false ->
  forall remaining attempt w,
    exists w' evs,
      withRetryFrom (call gmail r) baseDelay maxRetries attempt remaining w
      = (inl e, w')
      /\ trace w' = (trace w ++ evs)%list
      /\ sleeps evs
         = map (fun k => (baseDelay * 2 ^ Z.of_nat k)%Z) (seq attempt remaining)
      /\ requests evs = repeat r (S remaining).
Proof.
  intros Hrl. induction remaining as [|k IH]; intros attempt w.
  - cbn [withRetryFrom]. unfold tryCatch, call. rewrite always, retryable, Hrl.
    exists (emit (EvCall r) w), [EvCall r]. repeat split.
  - cbn [withRetryFrom]. unfold tryCatch at 1. unfold call at 1.
    rewrite always, retryable, Hrl. mrun.
    match goal with |- context [withRetryFrom _ _ _ _ _ ?w1] =>
      destruct (IH (S attempt) w1) as (w' & evs & Hrun & Htr & Hsl & Hreq) end.
    rewrite Hrun.
    exists w', (EvCall r :: EvSleep (baseDelay * 2 ^ Z.of_nat attempt) :: evs).
    split; [reflexivity|].
    split; [rewrite Htr; cbn [trace emit advance]; now rewrite <- !app_assoc|].
    split.
    + cbn. f_equal. exact Hsl.
    + cbn. f_equal. exact Hreq.
Qed.

End Backoff.

(** When every attempt fails with the same retryable error, [withRetry]
    sleeps [baseDelay * 2^attempt] between the attempts and not after the
    last one; when the error is a rate limit it sleeps
    [baseDelay * 2^(attempt + 2)] after every attempt, the last included. *)
Theorem withRetry_backoff (gmail : Gmail) (r : Request) (e : Error)
        (baseDelay : Z) (maxRetries : nat) (w : World) :
  (forall h, gmail h r = inl e) ->
  isFatal e = false ->
  exists w' evs,
    withRetry (call gmail r) maxRetries baseDelay w = (inl e, w')
    /\ trace w' = (trace w ++ evs)%list
    /\ requests evs = repeat r (S maxRetries)
    /\ sleeps evs
       = if isRateLimit e
         then map (fun k => (baseDelay * 2 ^ (Z.of_nat k + 2))%Z)
                  (seq 0 (S maxRetries))
         else map (fun k => (baseDelay * 2 ^ Z.of_nat k)%Z) (seq 0 maxRetries).
Proof.
  intros Hall Hnf. unfold withRetry. destruct (isRateLimit e) eqn:Hrl.
  - destruct (withRetryFrom_rate_limited gmail r e baseDelay maxRetries
                Hall Hnf Hrl maxRetries 0 w)
      as (w' & evs & Hrun & Htr & Hsl & Hreq).
    now exists w', evs.
  - destruct (withRetryFrom_plain_failure gmail r e baseDelay maxRetries
                Hall Hnf Hrl maxRetries 0 w)
      as (w' & evs & Hrun & Htr & Hsl & Hreq).
    now exists w', evs.
Qed.

Lemma withRetry_backoff_witness :
  exists w' evs,
    withRetry (call (fun _ _ => inl (mkError (Some 429%Z) None))
                    (MessagesGet "m1")) 3 1000 (mkWorld 0 [] 0 None)
    = (inl (mkError (Some 429%Z) None), w')
    /\ trace w' = ([] ++ evs)%list
    /\ requests evs = repeat (MessagesGet "m1") 4
    /\ sleeps evs = [4000; 8000; 16000; 32000]%Z.
Proof.
  apply (withRetry_backoff (fun _ _ => inl (mkError (Some 429%Z) None))
           (MessagesGet "m1") (mkError (Some 429%Z) None) 1000 3
           (mkWorld 0 [] 0 None)).
  - reflexivity.
  - reflexivity.
Defined.

(** ** processBatches *)

Lemma chunks_nil {A} (size fuel : nat) : Spec.chunks size fuel (@nil A) = [].
Proof. now destruct fuel. Qed.

Lemma chunks_step {A} (size fuel i : nat) (items : list A) :
  i < length items ->
  Spec.chunks size (S fuel) (drop i items)
  = Filter.slice i (i + size) items
      :: Spec.chunks size fuel (drop (i + size) items).
Proof.
  intros Hlt. cbn [Spec.chunks].
  destruct (drop i items) as [|x rest] eqn:Hd.
  - apply (f_equal length) in Hd. rewrite length_drop in Hd. cbn in Hd. lia.
  - rewrite <- Hd. unfold Filter.slice.
    replace (i + size - i) with size by lia. now rewrite drop_drop.
Qed.

Section ProcessBatches.
Context {A : Type}.
Variable gmail : Gmail.
Variable request : list A -> Request.
Variable batchSize : nat.
Variable delay : Z.
Variable items : list A.

Lemma processBatchesLoop_success :
  0 < batchSize ->
  (forall h batch, exists v, gmail h (request batch) = inr v) ->
  forall fuel i results w,
    length items - i <= fuel ->
    exists rs evs w',
      processBatchesLoop (fun batch => call gmail (request batch))
                         batchSize delay items fuel i results w
      = (inr (results ++ rs)%list, w')
      /\ trace w' = (trace w ++ evs)%list
      /\ length rs = length (Spec.chunks batchSize fuel (drop i items))
      /\ evs = between (EvSleep delay)
                       (map (fun c => EvCall (request c))
                            (Spec.chunks batchSize fuel (drop i items))).
Proof.
  intros Hsize Haccepts.
  induction fuel as [|fuel IH]; intros i results w Hfuel.
  - exists [], [], w. cbn. rewrite !app_nil_r. repeat split.
  - cbn [processBatchesLoop].
    destruct (Nat.ltb_spec i (length items)) as [Hlt|Hge].
    + rewrite (chunks_step batchSize fuel i items Hlt).
      set (batch := Filter.slice i (i + batchSize) items).
      rewrite run_bind. unfold withRetry.
      destruct (Haccepts (trace w) batch) as (v & Hv).
      rewrite (withRetryFrom_success gmail (request batch) v _ _ _ _ w Hv).
      rewrite run_bind.
      destruct (Nat.ltb_spec (i + batchSize) (length items)) as [Hmore|Hlast].
      * cbn [sleep].
        destruct (IH (i + batchSize) (results ++ [v])%list
                     (advance delay (emit (EvSleep delay)
                                          (emit (EvCall (request batch)) w))))
          as (rs & evs & w' & Hrun & Htr & Hlen & Hevs); [lia|].
        exists (v :: rs), (EvCall (request batch) :: EvSleep delay :: evs), w'.
        rewrite Hrun, <- app_assoc. split; [reflexivity|].
        split; [rewrite Htr; cbn [trace emit advance];
                now rewrite <- !app_assoc|].
        split; [cbn; now rewrite Hlen|].
        rewrite Hevs.
        destruct fuel as [|fuel']; [lia|].
        rewrite (chunks_step batchSize fuel' (i + batchSize) items Hmore).
        reflexivity.
      * cbn [mret M_ret ret].
        destruct (IH (i + batchSize) (results ++ [v])%list
                     (emit (EvCall (request batch)) w))
          as (rs & evs & w' & Hrun & Htr & Hlen & Hevs); [lia|].
        exists (v :: rs), (EvCall (request batch) :: evs), w'.
        rewrite Hrun, <- app_assoc. split; [reflexivity|].
        split; [rewrite Htr; cbn [trace emit]; now rewrite <- !app_assoc|].
        split; [cbn; now rewrite Hlen|].
        rewrite Hevs, drop_ge by lia. now rewrite chunks_nil.
    + exists [], [], w. rewrite drop_ge by lia. rewrite chunks_nil.
      cbn. rewrite !app_nil_r. repeat split.
Qed.

End ProcessBatches.

(** With a positive batch size and a provider that accepts the requests,
    [processBatches] returns one result for each consecutive chunk of the
    items, having sent the requests of the chunks in order with one pause
    between any two of them and none after the last. *)
Theorem processBatches_success {A} (gmail : Gmail) (request : list A -> Request)
        (items : list A) (batchSize : nat) (delay : Z) (w : World) :
  0 < batchSize ->
  (forall h batch, exists v, gmail h (request batch) = inr v) ->
  exists cs results evs w',
    concat cs = items
    /\ Forall (fun c => 0 < length c <= batchSize) cs
    /\ processBatches items (fun batch => call gmail (request batch))
                      batchSize delay w
       = (inr results, w')
    /\ length results = length cs
    /\ trace w' = (trace w ++ evs)%list
    /\ evs = between (EvSleep delay) (map (fun c => EvCall (request c)) cs).
Proof.
  intros Hsize Haccepts.
  destruct (processBatchesLoop_success gmail request batchSize delay items
              Hsize Haccepts (length items) 0 [] w)
    as (rs & evs & w' & Hrun & Htr & Hlen & Hevs); [lia|].
  exists (Spec.chunks batchSize (length items) items), rs, evs, w'.
  split; [now apply chunks_concat|].
  split; [now apply chunks_bounds|].
  split; [exact Hrun|]. now repeat split.
Qed.

Lemma processBatches_success_witness :
  exists cs results evs w',
    concat cs = ["a"; "b"; "c"; "d"; "e"]
    /\ Forall (fun c => 0 < length c <= 2) cs
    /\ processBatches ["a"; "b"; "c"; "d"; "e"]
         (fun batch => call (accepting []) (BatchModify batch [] ["INBOX"]))
         2 100 (mkWorld 0 [] 0 None)
       = (inr results, w')
    /\ length results = length cs
    /\ trace w' = ([] ++ evs)%list
    /\ evs = between (EvSleep 100)
                     (map (fun c => EvCall (BatchModify c [] ["INBOX"])) cs).
Proof.
  apply (processBatches_success (accepting [])
           (fun batch => BatchModify batch [] ["INBOX"])
           ["a"; "b"; "c"; "d"; "e"] 2 100 (mkWorld 0 [] 0 None)).
  - lia.
  - intros h batch. exists RDone. reflexivity.
Defined.

(** Unlike the loops of the batch mutator, [processBatches] stops at the
    first batch that fails for good: on an authorization or not-found
    error the error is thrown after this one request, and no later batch
    is sent. *)
Theorem processBatches_abort {A} (gmail : Gmail) (request : list A -> Request)
        (items : list A) (batchSize : nat) (delay : Z) (e : Error)
        (w : World) :
  items <> [] ->
  (forall h batch, gmail h (request batch) = inl e) ->
  isFatal e = true ->
  processBatches items (fun batch => call gmail (request batch))
                 batchSize delay w
  = (inl e, emit (EvCall (request (take batchSize items))) w).
Proof.
  intros Hne Hall Hfatal. unfold processBatches.
  destruct items as [|x rest]; [contradiction|].
  cbn [length processBatchesLoop Nat.ltb Nat.leb]. rewrite run_bind.
  unfold withRetry.
  rewrite (withRetryFrom_fatal gmail _ e _ _ _ _ w (Hall _ _) Hfatal).
  unfold Filter.slice. cbn [drop]. now rewrite Nat.sub_0_r.
Qed.

Lemma processBatches_abort_witness :
  processBatches ["a"; "b"; "c"]
    (fun batch => call (fun _ _ => inl (mkError (Some 401%Z) None))
                       (BatchModify batch [] ["INBOX"]))
    2 100 (mkWorld 0 [] 0 None)
  = (inl (mkError (Some 401%Z) None),
     emit (EvCall (BatchModify ["a"; "b"] [] ["INBOX"])) (mkWorld 0 [] 0 None)).
Proof.
  apply (processBatches_abort (fun _ _ => inl (mkError (Some 401%Z) None))
           (fun batch => BatchModify batch [] ["INBOX"])
           ["a"; "b"; "c"] 2 100 (mkError (Some 401%Z) None)
           (mkWorld 0 [] 0 None)).
  - discriminate.
  - reflexivity.
  - reflexivity.
Defined.

(** ** applyFiltersToExisting *)

Lemma extended_nil (w : World) : extended w [] = w.
Proof. unfold extended. rewrite app_nil_r. now destruct w. Qed.

Lemma extended_app (w : World) (evs evs' : list Event) :
  extended (extended w evs) evs' = extended w (evs ++ evs').
Proof. unfold extended. cbn. now rewrite app_assoc. Qed.

Lemma applyLabel_run (gmail : Gmail) (ids : list string) (lid : string)
      (w : World) :
  exists evs,
    applyLabel gmail (Some ids) lid w = (inr tt, extended w evs)
    /\ requests evs
       = map (fun c => BatchModify c [lid] [])
             (Spec.chunks 50 (length ids) ids).
Proof.
  unfold applyLabel. destruct ids as [|x ids].
  - exists []. now rewrite extended_nil.
  - cbn [length Nat.eqb].
    destruct (batchLoop_run gmail (fun batch => BatchModify batch [lid] [])
                "Error applying label to batch:" (x :: ids)
                (S (length ids)) 0 w) as (evs & Hrun & _ & Hreq).
    exists evs. split; [exact Hrun | exact Hreq].
Qed.

Lemma archiveMessages_run (gmail : Gmail) (ids : list string) (w : World) :
  exists evs,
    archiveMessages gmail (Some ids) w = (inr tt, extended w evs)
    /\ requests evs
       = map (fun c => BatchModify c [] ["INBOX"])
             (Spec.chunks 50 (length ids) ids).
Proof.
  unfold archiveMessages. destruct ids as [|x ids].
  - exists []. now rewrite extended_nil.
  - cbn [length Nat.eqb].
    destruct (batchLoop_run gmail (fun batch => BatchModify batch [] ["INBOX"])
                "Error archiving batch:" (x :: ids)
                (S (length ids)) 0 w) as (evs & Hrun & _ & Hreq).
    exists evs. split; [exact Hrun | exact Hreq].
Qed.

Lemma applyAction_run (gmail : Gmail) (action : Action) (w : World) :
  exists evs,
    applyAction gmail action w = (inr tt, extended w evs)
    /\ requests evs = actionRequests action.
Proof.
  unfold applyAction, actionRequests.
  destruct (labelId action) as [lid|];
    [|exists []; now rewrite extended_nil].
  destruct (negb (String.eqb lid "") && (0 <? length (emails action))%nat);
    [|exists []; now rewrite extended_nil].
  cbv zeta. rewrite length_map. rewrite run_bind.
  destruct (applyLabel_run gmail (map Analyzer.id (emails action)) lid w)
    as (evs1 & Hrun1 & Hreq1).
  rewrite Hrun1. rewrite length_map in Hreq1.
  destruct (archive action).
  - destruct (archiveMessages_run gmail (map Analyzer.id (emails action))
                (extended w evs1)) as (evs2 & Hrun2 & Hreq2).
    rewrite Hrun2, extended_app. rewrite length_map in Hreq2.
    exists (evs1 ++ evs2)%list. split; [reflexivity|].
    now rewrite requests_app, Hreq1, Hreq2.
  - exists evs1. split; [reflexivity|]. now rewrite Hreq1, app_nil_r.
Qed.

Lemma forOf_actions (gmail : Gmail) (l : list Action) (w : World) :
  exists evs,
    forOf (fun _ action => applyAction gmail action) l tt w
    = (inr tt, extended w evs)
    /\ requests evs = flat_map actionRequests l.
Proof.
  revert w. induction l as [|action l IH]; intros w.
  - exists []. cbn. now rewrite extended_nil.
  - cbn [forOf flat_map]. rewrite run_bind.
    destruct (applyAction_run gmail action w) as (evs1 & Hrun1 & Hreq1).
    rewrite Hrun1.
    destruct (IH (extended w evs1)) as (evs2 & Hrun2 & Hreq2).
    rewrite Hrun2, extended_app. exists (evs1 ++ evs2)%list.
    split; [reflexivity|]. now rewrite requests_app, Hreq1, Hreq2.
Qed.

(** Whatever the provider answers, [applyFiltersToExisting] returns
    normally and leaves the clock, the rate limiter and the cache as they
    were; it sends, category after category in the order of its table,
    the label requests of the chunks of the category and then, for
    newsletters, promotional and automated, the archive requests of the
    same chunks; a category without label id or without messages is
    passed over. *)
Theorem applyFiltersToExisting_run (gmail : Gmail) (analysisResults : EmailStats)
        (labels : gmap string Label) (w : World) :
  exists evs,
    applyFiltersToExisting gmail analysisResults labels w
    = (inr tt, extended w evs)
    /\ requests evs
       = flat_map actionRequests (actions analysisResults labels).
Proof. apply forOf_actions. Qed.

Lemma In_chunks {A} (size fuel : nat) (l : list A) (c : list A) (x : A) :
  In c (Spec.chunks size fuel l) -> In x c -> In x l.
Proof.
  revert l. induction fuel as [|fuel IH]; intros l Hc Hx; [destruct Hc|].
  destruct l as [|y l]; [destruct Hc|].
  cbn [Spec.chunks] in Hc. rewrite <- (take_drop size (y :: l)).
  apply in_app_iff. destruct Hc as [Hc|Hc].
  - left. now rewrite Hc.
  - right. exact (IH _ Hc Hx).
Qed.

Lemma actionRequests_archived (action : Action) (r : Request) (m : string) :
  In r (actionRequests action) -> In m (archived r) ->
  archive action = true
  /\ In m (map Analyzer.id (emails action))
  /\ exists r', In r' (actionRequests action) /\ In m (labelled r').
Proof.
  unfold actionRequests. destruct (labelId action) as [lid|]; [|intros []].
  destruct (negb (String.eqb lid "") && (0 <? length (emails action))%nat);
    [|intros []].
  cbv zeta. intros Hr Hm. apply in_app_iff in Hr. destruct Hr as [Hr|Hr].
  - apply in_map_iff in Hr. destruct Hr as (c & <- & _). destruct Hm.
  - destruct (archive action); [|destruct Hr].
    apply in_map_iff in Hr. destruct Hr as (c & <- & Hc).
    cbn in Hm. split; [reflexivity|].
    split; [exact (In_chunks _ _ _ _ _ Hc Hm)|].
    exists (BatchModify c [lid] []). split; [|exact Hm].
    apply in_app_iff. left. apply in_map_iff. now exists c.
Qed.

(** A message is taken out of the inbox only if it is a newsletter, a
    promotional or an automated message of the analysis, and only in a run
    that also sends a request labelling it: VIP, protected, social, forum,
    receipt, confirmation and unknown messages are never archived. *)
Theorem applyFiltersToExisting_archives (gmail : Gmail)
        (analysisResults : EmailStats) (labels : gmap string Label)
        (w : World) :
  exists evs,
    trace (snd (applyFiltersToExisting gmail analysisResults labels w))
    = (trace w ++ evs)%list
    /\ forall r m,
        In r (requests evs) -> In m (archived r) ->
        In m (map Analyzer.id (newsletters analysisResults
                                 ++ promotional analysisResults
                                 ++ automated analysisResults))
        /\ exists r', In r' (requests evs) /\ In m (labelled r').
Proof.
  destruct (forOf_actions gmail (actions analysisResults labels) w)
    as (evs & Hrun & Hreq).
  exists evs. unfold applyFiltersToExisting. rewrite Hrun.
  split; [reflexivity|]. intros r m Hr Hm. rewrite Hreq in *.
  apply in_flat_map in Hr. destruct Hr as (action & Haction & Hr).
  destruct (actionRequests_archived action r m Hr Hm) as (Harch & Hin & r' & Hr' & Hm').
  split.
  - rewrite !map_app, !in_app_iff. unfold actions in Haction. cbn in Haction.
    repeat (destruct Haction as [<-|Haction];
            [cbn in Harch, Hin; try discriminate; tauto|]).
    destruct Haction.
  - exists r'. split; [|exact Hm']. apply in_flat_map. now exists action.
Qed.

(** ** The statistics of the analysis *)

Lemma ofCategory_snoc (c : Category) (l : list Analysis) (a : Analysis) :
  ofCategory c (l ++ [a])
  = (ofCategory c l ++ if decide (category a = c) then [a] else [])%list.
Proof.
  unfold ofCategory. rewrite filter_app. reflexivity.
Qed.

Lemma aggregate_app (stats : EmailStats) (l1 l2 : list (option Analysis)) :
  aggregate stats (l1 ++ l2) = aggregate (aggregate stats l1) l2.
Proof. unfold aggregate. apply foldl_app. Qed.

(** the groups after the aggregation, for the analyses read so far *)
Lemma aggregate_groups (stats : EmailStats) (analyses : list (option Analysis)) :
  let s := aggregate stats analyses in
  let l := arrived analyses in
  total s = total stats + length l
  /\ fromVIP s = (fromVIP stats ++ ofCategory Vip l)%list
  /\ protected s = (protected stats ++ ofCategory Protected l)%list
  /\ newsletters s = (newsletters stats ++ ofCategory Newsletter l)%list
  /\ promotional s = (promotional stats ++ ofCategory Promotional l)%list
  /\ social s = (social stats ++ ofCategory Social l)%list
  /\ forums s = (forums stats ++ ofCategory Forums l)%list
  /\ automated s = (automated stats ++ ofCategory Automated l)%list
  /\ receipts s = (receipts stats ++ ofCategory Receipt l)%list
  /\ confirmations s = (confirmations stats ++ ofCategory Confirmation l)%list
  /\ unknown s = (unknown stats ++ ofCategory Unknown l)%list
  /\ personal s = personal stats.
Proof.
  induction analyses as [|x analyses IH] using rev_ind.
  - cbn. rewrite !app_nil_r. repeat split; lia.
  - cbv zeta in *. rewrite aggregate_app. unfold arrived in *.
    rewrite omap_app.
    destruct IH as (Ht & H1 & H2 & H3 & H4 & H5 & H6 & H7 & H8 & H9 & H10 & H11).
    destruct x as [a|].
    + change (omap (fun analysis : option Analysis => analysis) [Some a])
        with [a].
      cbn [aggregate foldl].
      rewrite !ofCategory_snoc, length_app. unfold push.
      destruct (category a) eqn:Hc; cbn;
        rewrite Ht, H1, H2, H3, H4, H5, H6, H7, H8, H9, H10, H11;
        repeat (case_decide; try congruence);
        rewrite ?app_nil_r, <- ?app_assoc; cbn [length];
        repeat split; try reflexivity; lia.
    + cbn. rewrite !app_nil_r. repeat split; assumption.
Qed.

Lemma length_allEmails_push (stats : EmailStats) (a : Analysis) :
  length (allEmails (push stats a)) = S (length (allEmails stats))
  /\ total (push stats a) = S (total stats).
Proof.
  unfold push, allEmails.
  destruct (category a); cbn; rewrite ?length_app; cbn;
    rewrite ?length_app; cbn; split; lia.
Qed.

(** The aggregation of [analyzeAllEmails] skips the messages whose
    analysis failed and appends every other one, in message order, to the
    group of its category and to no other group; the personal group is
    never written; and when the total was the number of grouped messages
    before, it is so afterwards. *)
Theorem aggregate_partition (stats : EmailStats)
        (analyses : list (option Analysis)) :
  let s := aggregate stats analyses in
  let l := arrived analyses in
  (fromVIP s = (fromVIP stats ++ ofCategory Vip l)%list
   /\ protected s = (protected stats ++ ofCategory Protected l)%list
   /\ newsletters s = (newsletters stats ++ ofCategory Newsletter l)%list
   /\ promotional s = (promotional stats ++ ofCategory Promotional l)%list
   /\ social s = (social stats ++ ofCategory Social l)%list
   /\ forums s = (forums stats ++ ofCategory Forums l)%list
   /\ automated s = (automated stats ++ ofCategory Automated l)%list
   /\ receipts s = (receipts stats ++ ofCategory Receipt l)%list
   /\ confirmations s = (confirmations stats ++ ofCategory Confirmation l)%list
   /\ unknown s = (unknown stats ++ ofCategory Unknown l)%list
   /\ personal s = personal stats)
  /\ total s = total stats + length l
  /\ (total stats = length (allEmails stats) ->
      total s = length (allEmails s)).
Proof.
  cbv zeta.
  pose proof (aggregate_groups stats analyses) as H. cbv zeta in H.
  destruct H as (Ht & Hgroups).
  split; [exact Hgroups|]. split; [exact Ht|].
  clear Ht Hgroups. revert stats.
  induction analyses as [|x analyses IH]; intros stats Hbal; [exact Hbal|].
  cbn [aggregate foldl]. apply IH. destruct x as [a|]; [|exact Hbal].
  destruct (length_allEmails_push stats a) as (Hlen & Htot). lia.
Qed.

Lemma aggregate_partition_witness :
  let a := mkAnalysis "m1" "News <n@x.com>" "n@x.com" "Digest" [] Newsletter in
  let b := mkAnalysis "m3" "Bob <b@y.com>" "b@y.com" "Hi" [] Unknown in
  let s := aggregate emptyStats [Some a; None; Some b] in
  total s = length (allEmails s).
Proof.
  intros a b s.
  apply (aggregate_partition emptyStats [Some a; None; Some b]).
  reflexivity.
Defined.

(** ** calculateSenderFrequency *)

Lemma mapGet_mapSet (m : list (string * nat)) (k k' : string) (v : nat) :
  mapGet (mapSet m k v) k' = if String.eqb k k' then Some v else mapGet m k'.
Proof.
  induction m as [|[k0 v0] m IH]; cbn [mapSet mapGet].
  - reflexivity.
  - destruct (String.eqb_spec k0 k) as [->|Hne]; cbn [mapGet].
    + destruct (String.eqb k k'); reflexivity.
    + rewrite IH. destruct (String.eqb_spec k0 k') as [->|Hne'];
        [|reflexivity].
      destruct (String.eqb_spec k k') as [->|]; [contradiction | reflexivity].
Qed.

Lemma mapGet_In (m : list (string * nat)) (k : string) (v : nat) :
  mapGet m k = Some v -> In (k, v) m.
Proof.
  induction m as [|[k0 v0] m IH]; cbn [mapGet]; [discriminate|].
  destruct (String.eqb_spec k0 k) as [->|Hne].
  - intros [= ->]. now left.
  - intros H. right. now apply IH.
Qed.

Lemma mapGet_None (m : list (string * nat)) (k : string) :
  mapGet m k = None -> ~ In k (map fst m).
Proof.
  induction m as [|[k0 v0] m IH]; cbn [mapGet map fst]; [now intros _ []|].
  destruct (String.eqb_spec k0 k) as [->|Hne]; [discriminate|].
  intros H [Heq|Hin]; [contradiction | now apply IH].
Qed.

Lemma In_mapGet (m : list (string * nat)) (k : string) (v : nat) :
  NoDup (map fst m) -> In (k, v) m -> mapGet m k = Some v.
Proof.
  induction m as [|[k0 v0] m IH]; cbn [mapGet map fst]; [now intros _ []|].
  intros Hnd [Heq|Hin].
  - injection Heq as -> ->. now rewrite String.eqb_refl.
  - apply NoDup_cons in Hnd. destruct Hnd as (Hnotin & Hnd).
    destruct (String.eqb_spec k0 k) as [->|Hne].
    + exfalso. apply Hnotin. apply list_elem_of_In, in_map_iff.
      now exists (k, v).
    + now apply IH.
Qed.

Lemma keys_mapSet (m : list (string * nat)) (k : string) (v : nat) :
  map fst (mapSet m k v)
  = match mapGet m k with
    | Some _ => map fst m
    | None => (map fst m ++ [k])%list
    end.
Proof.
  induction m as [|[k0 v0] m IH]; cbn [mapSet mapGet map fst app];
    [reflexivity|].
  destruct (String.eqb_spec k0 k) as [->|Hne]; [reflexivity|].
  cbn [map fst]. rewrite IH. now destruct (mapGet m k).
Qed.

Lemma NoDup_mapSet (m : list (string * nat)) (k : string) (v : nat) :
  NoDup (map fst m) -> NoDup (map fst (mapSet m k v)).
Proof.
  intros Hnd. rewrite keys_mapSet. destruct (mapGet m k) eqn:Hget;
    [exact Hnd|].
  apply NoDup_app. split; [exact Hnd|]. split.
  - intros x Hx Hk. apply list_elem_of_In in Hx.
    apply list_elem_of_In in Hk. destruct Hk as [<-|[]].
    now apply (mapGet_None m k Hget).
  - apply NoDup_singleton.
Qed.

Lemma count_occ_snoc (l : list string) (x k : string) :
  count_occ string_dec (l ++ [x]) k
  = count_occ string_dec l k + if string_dec x k then 1 else 0.
Proof.
  rewrite count_occ_app. reflexivity.
Qed.

(** the map of [calculateSenderFrequency] holds, for every non-empty
    sender seen, the number of its occurrences *)
Lemma senderMapOf_counts (senders : list string) :
  NoDup (map fst (senderMapOf senders))
  /\ forall k,
      mapGet (senderMapOf senders) k
      = if String.eqb k "" then None
        else match count_occ string_dec senders k with
             | O => None
             | S n => Some (S n)
             end.
Proof.
  unfold senderMapOf.
  induction senders as [|x senders IH] using rev_ind.
  - cbn. split; [constructor|]. intros k. now destruct (String.eqb k "").
  - rewrite foldl_app. cbn [foldl]. destruct IH as (Hnd & Hget).
    destruct (String.eqb_spec x "") as [->|Hx]; cbn [negb].
    + split; [exact Hnd|]. intros k. rewrite Hget, count_occ_snoc.
      destruct (String.eqb_spec k "") as [->|Hk]; [reflexivity|].
      destruct (string_dec "" k) as [<-|_]; [contradiction|].
      now rewrite Nat.add_0_r.
    + split; [now apply NoDup_mapSet|]. intros k.
      rewrite mapGet_mapSet, count_occ_snoc.
      destruct (String.eqb_spec x k) as [->|Hne].
      * destruct (String.eqb_spec k "") as [->|_]; [contradiction|].
        destruct (string_dec k k) as [_|]; [|contradiction].
        rewrite Hget. destruct (String.eqb_spec k "") as [->|_];
          [contradiction|].
        destruct (count_occ string_dec senders k); cbn; f_equal; lia.
      * rewrite Hget. destruct (string_dec x k) as [->|_]; [contradiction|].
        now rewrite Nat.add_0_r.
Qed.

Lemma insertByCount_perm (x : string * nat) (l : list (string * nat)) :
  Permutation (insertByCount x l) (x :: l).
Proof.
  induction l as [|y l IH]; cbn [insertByCount]; [reflexivity|].
  destruct (snd y <=? snd x)%nat; [reflexivity|].
  rewrite IH. apply perm_swap.
Qed.

Lemma sortByCount_perm (l : list (string * nat)) :
  Permutation (sortByCount l) l.
Proof.
  unfold sortByCount. induction l as [|x l IH]; cbn [foldr]; [reflexivity|].
  rewrite insertByCount_perm. now constructor.
Qed.

Lemma insertByCount_sorted (x : string * nat) (l : list (string * nat)) :
  StronglySorted (fun a b => snd b <= snd a) l ->
  StronglySorted (fun a b => snd b <= snd a) (insertByCount x l).
Proof.
  induction l as [|y l IH]; intros Hs; cbn [insertByCount].
  - repeat constructor.
  - apply StronglySorted_inv in Hs. destruct Hs as (Hs & Hall).
    destruct (Nat.leb_spec (snd y) (snd x)) as [Hle|Hgt].
    + constructor; [now constructor|]. constructor; [exact Hle|].
      eapply Forall_impl; [exact Hall|]. cbn. intros z Hz. lia.
    + constructor; [now apply IH|].
      rewrite (insertByCount_perm x l). constructor; [lia | exact Hall].
Qed.

Lemma sortByCount_sorted (l : list (string * nat)) :
  StronglySorted (fun a b => snd b <= snd a) (sortByCount l).
Proof.
  unfold sortByCount. induction l as [|x l IH]; cbn [foldr].
  - constructor.
  - now apply insertByCount_sorted.
Qed.

(** [calculateSenderFrequency] lists every non-empty sender of the
    statistics exactly once, with the number of its messages over all the
    groups, in the order of decreasing counts. *)
Theorem calculateSenderFrequency_counts (stats : EmailStats) :
  let senders := map fromEmail (allEmails stats) in
  let result := calculateSenderFrequency stats in
  StronglySorted (fun a b => snd b <= snd a) result
  /\ NoDup (map fst result)
  /\ forall s n,
      In (s, n) result
      <-> s <> "" /\ 0 < n /\ n = count_occ string_dec senders s.
Proof.
  cbv zeta. unfold calculateSenderFrequency.
  set (senders := map fromEmail (allEmails stats)).
  destruct (senderMapOf_counts senders) as (Hnd & Hget).
  split; [|split].
  - apply sortByCount_sorted.
  - rewrite (sortByCount_perm (senderMapOf senders)). exact Hnd.
  - intros s n. rewrite (sortByCount_perm (senderMapOf senders)).
    split.
    + intros Hin. apply (In_mapGet _ _ _ Hnd) in Hin. rewrite Hget in Hin.
      destruct (String.eqb_spec s "") as [->|Hs]; [discriminate|].
      destruct (count_occ string_dec senders s); [discriminate|].
      injection Hin as <-. repeat split; [exact Hs | lia].
    + intros (Hs & Hpos & ->). apply mapGet_In. rewrite Hget.
      destruct (String.eqb_spec s "") as [->|_]; [contradiction|].
      destruct (count_occ string_dec senders s); [lia | reflexivity].
Qed.

(** ** getFrequentSenders, in full *)

Lemma getOwn_setOwn (o : list (string * Count)) (k k' : string) (v : Count) :
  getOwn (setOwn o k v) k' = if String.eqb k k' then Some v else getOwn o k'.
Proof.
  induction o as [|[k0 v0] o IH]; cbn [setOwn getOwn].
  - reflexivity.
  - destruct (String.eqb_spec k0 k) as [->|Hne]; cbn [getOwn].
    + destruct (String.eqb k k'); reflexivity.
    + rewrite IH. destruct (String.eqb_spec k0 k') as [->|Hne'];
        [|reflexivity].
      destruct (String.eqb_spec k k') as [->|]; [contradiction | reflexivity].
Qed.

Lemma getOwn_None (o : list (string * Count)) (k : string) :
  getOwn o k = None -> ~ In k (map fst o).
Proof.
  induction o as [|[k0 v0] o IH]; cbn [getOwn map fst]; [now intros _ []|].
  destruct (String.eqb_spec k0 k) as [->|Hne]; [discriminate|].
  intros H [Heq|Hin]; [contradiction | now apply IH].
Qed.

Lemma In_getOwn (o : list (string * Count)) (k : string) (v : Count) :
  NoDup (map fst o) -> In (k, v) o -> getOwn o k = Some v.
Proof.
  induction o as [|[k0 v0] o IH]; cbn [getOwn map fst]; [now intros _ []|].
  intros Hnd [Heq|Hin].
  - injection Heq as -> ->. now rewrite String.eqb_refl.
  - apply NoDup_cons in Hnd. destruct Hnd as (Hnotin & Hnd).
    destruct (String.eqb_spec k0 k) as [->|Hne].
    + exfalso. apply Hnotin. apply list_elem_of_In, in_map_iff.
      now exists (k, v).
    + now apply IH.
Qed.

Lemma NoDup_setOwn (o : list (string * Count)) (k : string) (v : Count) :
  NoDup (map fst o) -> NoDup (map fst (setOwn o k v)).
Proof.
  assert (Hkeys : map fst (setOwn o k v)
                  = match getOwn o k with
                    | Some _ => map fst o
                    | None => (map fst o ++ [k])%list
                    end).
  { induction o as [|[k0 v0] o IH]; cbn [setOwn getOwn map fst app];
      [reflexivity|].
    destruct (String.eqb_spec k0 k) as [->|Hne]; [reflexivity|].
    cbn [map fst]. rewrite IH. now destruct (getOwn o k). }
  intros Hnd. rewrite Hkeys. destruct (getOwn o k) eqn:Hget; [exact Hnd|].
  apply NoDup_app. split; [exact Hnd|]. split.
  - intros x Hx Hk. apply list_elem_of_In in Hx.
    apply list_elem_of_In in Hk. destruct Hk as [<-|[]].
    now apply (getOwn_None o k Hget).
  - apply NoDup_singleton.
Qed.

Lemma ordinary_spec (k : string) :
  ordinary k = true <->
  k <> "" /\ k <> "__proto__" /\ arrayIncludes objectPrototypeMethods k = false.
Proof.
  unfold ordinary. rewrite !andb_true_iff, !negb_true_iff.
  destruct (String.eqb_spec k ""), (String.eqb_spec k "__proto__");
    split; intros H; try tauto; destruct H as ((H1 & H2) & H3);
    try discriminate.
Qed.

(** [senderCount] after the [forEach]: an ordinary key holds the number of
    its occurrences, any other key present holds a string *)
Lemma senderCountOf_exact (senders : list string) :
  NoDup (map fst (senderCountOf senders))
  /\ (forall k, ordinary k = true ->
        getOwn (senderCountOf senders) k
        = match count_occ string_dec senders k with
          | O => None
          | S n => Some (Num (S n))
          end)
  /\ (forall k v, In (k, v) (senderCountOf senders) ->
        ordinary k = false -> v = Str).
Proof.
  unfold senderCountOf.
  induction senders as [|x senders IH] using rev_ind.
  - cbn. split; [constructor|]. split; [reflexivity | now intros k v []].
  - rewrite foldl_app. cbn [foldl]. destruct IH as (Hnd & Hget & Hstr).
    set (o := foldl _ [] senders) in *.
    assert (Hother : forall k, x <> k ->
               count_occ string_dec (senders ++ [x]) k
               = count_occ string_dec senders k).
    { intros k Hne. rewrite count_occ_snoc.
      destruct (string_dec x k); [contradiction | lia]. }
    assert (Hself : count_occ string_dec (senders ++ [x]) x
                    = S (count_occ string_dec senders x)).
    { rewrite count_occ_snoc. destruct (string_dec x x); [lia | contradiction]. }
    destruct (String.eqb_spec x "") as [->|Hx]; cbn [negb].
    { split; [exact Hnd|]. split; [|exact Hstr].
      intros k Hk. rewrite Hother; [now apply Hget|].
      apply ordinary_spec in Hk. intros <-. tauto. }
    unfold increment. destruct (getOwn o x) as [[n|]|] eqn:Hox.
    + (* a number: the key is ordinary *)
      assert (Hord : ordinary x = true).
      { destruct (ordinary x) eqn:Hord; [reflexivity|].
        apply getOwn_In in Hox. now specialize (Hstr _ _ Hox Hord). }
      split; [now apply NoDup_setOwn|]. split.
      * intros k Hk. rewrite getOwn_setOwn.
        destruct (String.eqb_spec x k) as [<-|Hne].
        -- rewrite Hself. rewrite (Hget x Hord) in Hox.
           destruct (count_occ string_dec senders x); [discriminate|].
           injection Hox as <-. do 2 f_equal. lia.
        -- rewrite Hother by exact Hne. now apply Hget.
      * intros k v Hin Hk. apply In_setOwn in Hin.
        destruct Hin as [[= -> ->]|Hin]; [congruence | now apply (Hstr k)].
    + (* a string: the key is not ordinary *)
      assert (Hord : ordinary x = false).
      { destruct (ordinary x) eqn:Hord; [|reflexivity].
        rewrite (Hget x Hord) in Hox.
        destruct (count_occ string_dec senders x); discriminate. }
      split; [now apply NoDup_setOwn|]. split.
      * intros k Hk. rewrite getOwn_setOwn.
        destruct (String.eqb_spec x k) as [<-|Hne]; [congruence|].
        rewrite Hother by exact Hne. now apply Hget.
      * intros k v Hin Hk. apply In_setOwn in Hin.
        destruct Hin as [[= -> ->]|Hin]; [reflexivity | now apply (Hstr k)].
    + destruct (String.eqb_spec x "__proto__") as [->|Hproto].
      { split; [exact Hnd|]. split; [|exact Hstr].
        intros k Hk. rewrite Hother; [now apply Hget|].
        apply ordinary_spec in Hk. intros <-. tauto. }
      destruct (arrayIncludes objectPrototypeMethods x) eqn:Hmethod.
      * assert (Hord : ordinary x = false).
        { unfold ordinary. rewrite Hmethod. now rewrite andb_false_r. }
        split; [now apply NoDup_setOwn|]. split.
        -- intros k Hk. rewrite getOwn_setOwn.
           destruct (String.eqb_spec x k) as [<-|Hne]; [congruence|].
           rewrite Hother by exact Hne. now apply Hget.
        -- intros k v Hin Hk. apply In_setOwn in Hin.
           destruct Hin as [[= -> ->]|Hin]; [reflexivity | now apply (Hstr k)].
      * assert (Hord : ordinary x = true).
        { apply ordinary_spec. repeat split; assumption. }
        split; [now apply NoDup_setOwn|]. split.
        -- intros k Hk. rewrite getOwn_setOwn.
           destruct (String.eqb_spec x k) as [<-|Hne].
           ++ rewrite Hself. rewrite (Hget x Hord) in Hox.
              destruct (count_occ string_dec senders x); [reflexivity|].
              discriminate.
           ++ rewrite Hother by exact Hne. now apply Hget.
        -- intros k v Hin Hk. apply In_setOwn in Hin.
           destruct Hin as [[= -> ->]|Hin]; [congruence | now apply (Hstr k)].
Qed.

Lemma insertIndexed_perm (e : N * (string * Count))
      (l : list (N * (string * Count))) :
  Permutation (insertIndexed e l) (e :: l).
Proof.
  induction l as [|y l IH]; cbn [insertIndexed]; [reflexivity|].
  destruct (fst e <=? fst y)%N; [reflexivity|].
  rewrite IH. apply perm_swap.
Qed.

Lemma entries_perm (o : list (string * Count)) : Permutation (entries o) o.
Proof.
  unfold entries.
  assert (Hsort : forall l : list (N * (string * Count)),
             Permutation (foldr insertIndexed [] l) l).
  { induction l as [|e l IH]; cbn [foldr]; [reflexivity|].
    rewrite insertIndexed_perm. now constructor. }
  rewrite Hsort. clear Hsort.
  induction o as [|kv o IH]; [reflexivity|].
  simpl. destruct (arrayIndex (fst kv)); simpl.
  - now constructor.
  - rewrite <- Permutation_middle. now constructor.
Qed.

Lemma NoDup_keys_filter (P : string * Count -> bool)
      (l : list (string * Count)) :
  NoDup (map fst l) -> NoDup (map fst (List.filter P l)).
Proof.
  induction l as [|kv l IH]; cbn [List.filter map]; [intros; constructor|].
  intros Hnd. apply NoDup_cons in Hnd. destruct Hnd as (Hnotin & Hnd).
  destruct (P kv); [|now apply IH].
  cbn [map]. apply NoDup_cons. split; [|now apply IH].
  intros Hin. apply Hnotin. apply list_elem_of_In.
  apply list_elem_of_In, in_map_iff in Hin.
  destruct Hin as (kv' & Heq & Hin). apply filter_In in Hin.
  apply in_map_iff. exists kv'. tauto.
Qed.

(** [getFrequentSenders] returns, each once, exactly the senders that
    occur at least [minFrequency] times among the non-empty [fromEmail]
    fields, except [__proto__] and the names of the methods of
    [Object.prototype], which it never returns. *)
Theorem getFrequentSenders_exactly (emails : list Analysis)
        (minFrequency : nat) :
  NoDup (getFrequentSenders emails minFrequency)
  /\ forall s,
      In s (getFrequentSenders emails minFrequency)
      <-> ordinary s = true
          /\ 0 < count_occ string_dec (map fromEmail emails) s
          /\ minFrequency <= count_occ string_dec (map fromEmail emails) s.
Proof.
  unfold getFrequentSenders.
  set (senders := map fromEmail emails).
  destruct (senderCountOf_exact senders) as (Hnd & Hget & Hstr).
  split.
  - apply NoDup_keys_filter. rewrite (entries_perm (senderCountOf senders)).
    exact Hnd.
  - intros s. split.
    + intros Hin. apply in_map_iff in Hin. destruct Hin as ([k v] & Hk & Hin).
      cbn in Hk. subst k. apply filter_In in Hin. destruct Hin as (Hin & Hat).
      cbn in Hat. rewrite (entries_perm (senderCountOf senders)) in Hin.
      destruct v as [n|]; [|discriminate]. apply Nat.leb_le in Hat.
      assert (Hord : ordinary s = true).
      { destruct (ordinary s) eqn:Hord; [reflexivity|].
        now specialize (Hstr _ _ Hin Hord). }
      apply (In_getOwn _ _ _ Hnd) in Hin. rewrite (Hget s Hord) in Hin.
      destruct (count_occ string_dec senders s); [discriminate|].
      injection Hin as Hn. split; [exact Hord|]. split; lia.
    + intros (Hord & Hpos & Hmin). apply in_map_iff.
      exists (s, Num (count_occ string_dec senders s)). split; [reflexivity|].
      apply filter_In. split.
      * rewrite (entries_perm (senderCountOf senders)). apply getOwn_In.
        rewrite (Hget s Hord).
        destruct (count_occ string_dec senders s); [lia | reflexivity].
      * cbn. now apply Nat.leb_le.
Qed.

(** ** createFilters: protection and failures *)

Lemma createFilterStep_unprotected (gmail : Gmail) (this : EmailFilter)
      (labels : gmap string Label) (labelName kind : string)
      (state : nat * list string) (sender : string) :
  triple anyWorld
         (benign (fun s => Filter.isProtectedSender this s = false))
         (createFilterStep gmail this labels labelName kind state sender)
         anyWorld.
Proof.
  destruct state as [createdCount errors]. unfold createFilterStep.
  apply (triple_bind _ anyWorld anyWorld anyWorld);
    [apply filterExists_any | | auto].
  intros [|]; [apply triple_ret|].
  destruct (Filter.isProtectedSender this sender) eqn:Hprot;
    [apply triple_ret|].
  apply (createAttempt_triple gmail labels anyWorld
           (fun s => Filter.isProtectedSender this s = false)
           sender labelName (fun _ => (createdCount, errors))
           (fun error => (createdCount, _)));
    [apply anyWorld_stable | exact Hprot].
Qed.

(** [createFilters] sends no request to create a rule for a protected
    sender: every sender it asks a rule for matches none of the configured
    protected senders and is outside the protected domains. *)
Theorem createFilters_spares_protected (gmail : Gmail) (this : EmailFilter)
        (analysisResults : EmailStats) (labels : gmap string Label)
        (w : World) :
  exists evs,
    trace (snd (createFilters gmail this analysisResults labels w))
    = (trace w ++ evs)%list
    /\ forall s add rem,
        In (EvCall (FiltersCreate s add rem)) evs ->
        Utils.isProtectedSender s (Filter.protectedSenders this) = false
        /\ isFromProtectedDomain s = false.
Proof.
  destruct (createFilters_triple gmail this labels anyWorld
              (fun s => Filter.isProtectedSender this s = false)
              analysisResults) with (w := w) as (_ & evs & Htr & Hev).
  - intros emails labelName kind st sender _ _ _.
    apply createFilterStep_unprotected.
  - exact Logic.I.
  - exists evs. split; [exact Htr|]. intros s add rem Hin.
    pose proof (benign_In _ evs s add rem Hev Hin) as Hs.
    unfold Filter.isProtectedSender in Hs. now apply orb_false_iff in Hs.
Qed.

Lemma returns_ret {A} (I : World -> Prop) (a : A) : returns I (mret a).
Proof. intros w Hw. split; [now exists a | exact Hw]. Qed.

Lemma returns_bind {A B} (I : World -> Prop) (m : M A) (f : A -> M B) :
  returns I m -> (forall a, returns I (f a)) -> returns I (m ≫= f).
Proof.
  intros Hm Hf w Hw. rewrite run_bind.
  destruct (Hm w Hw) as ((a & Ha) & Hw1).
  destruct (m w) as [[e|a'] w1]; cbn [fst snd] in *; [discriminate|].
  now apply Hf.
Qed.

Lemma returns_forOf {A B} (I : World -> Prop) (body : B -> A -> M B)
      (xs : list A) :
  (forall acc x, returns I (body acc x)) ->
  forall acc, returns I (forOf body xs acc).
Proof.
  intros Hbody. induction xs as [|x xs IH]; intros acc; cbn [forOf].
  - apply returns_ret.
  - apply returns_bind; [apply Hbody | exact IH].
Qed.

Lemma returns_console (e : Event) : returns anyWorld (console e).
Proof. intros w _. split; [now exists tt | exact Logic.I]. Qed.

Lemma createFilterStep_returns (gmail : Gmail) (this : EmailFilter)
      (labels : gmap string Label) (E : list FilterRule)
      (labelName kind : string) (state : nat * list string)
      (sender : string) :
  returns (queried gmail E)
          (createFilterStep gmail this labels labelName kind state sender).
Proof.
  intros w Hq. destruct state as [createdCount errors].
  unfold createFilterStep. rewrite run_bind.
  destruct (filterExists_run gmail E sender w Hq) as (evs0 & Hrun & _).
  rewrite Hrun. clear Hrun.
  set (w1 := mkWorld (time w) (trace w ++ evs0) (lastRequest w) (Some E)).
  assert (Hc1 : cached E w1) by reflexivity.
  destruct (existsb (sameFrom sender) E).
  { split; [now eexists | now apply cached_queried]. }
  destruct (Filter.isProtectedSender this sender).
  { split; [now eexists | now apply cached_queried]. }
  destruct (createAttempt_triple gmail labels (cached E) (fun _ => True)
              sender labelName
              (fun _ => (createdCount, errors))
              (fun error =>
                 (createdCount,
                  (errors ++ [kind +:+ " filter for " +:+ sender
                              +:+ ": " +:+ messageText error])%list))
              (createdCount + 1, errors)
              (cached_stable E) Logic.I w1 Hc1) as (Hpost & _).
  split; [|now apply cached_queried].
  unfold tryCatch.
  match goal with |- context [match ?m w1 with _ => _ end] =>
    destruct (m w1) as [[e|a] w2] end; now eexists.
Qed.

Lemma createFiltersFor_returns (gmail : Gmail) (this : EmailFilter)
      (labels : gmap string Label) (E : list FilterRule)
      (emails : list Analysis) (labelName kind : string)
      (state : nat * list string) :
  returns (queried gmail E)
          (createFiltersFor gmail this labels emails labelName kind state).
Proof.
  unfold createFiltersFor. destruct (5 <? length emails)%nat.
  - apply returns_forOf. intros acc x. apply createFilterStep_returns.
  - apply returns_ret.
Qed.

(** Once the existing rules are at hand, in the cache or from the
    provider, [createFilters] returns a count whatever happens to the
    requests that create rules: a rule that cannot be created is reported
    and the next sender is tried. *)
Theorem createFilters_returns (gmail : Gmail) (this : EmailFilter)
        (analysisResults : EmailStats) (labels : gmap string Label)
        (w : World) (E : list FilterRule) :
  Spec.snapshot gmail w = Some E ->
  exists createdCount,
    fst (createFilters gmail this analysisResults labels w) = inr createdCount.
Proof.
  intros Hq.
  assert (Hreport : forall s3 : nat * list string,
             returns anyWorld
               (let '(createdCount, errors) := s3 in
                (if (0 <? length errors)%nat then
                   console (EvConsoleLog
                              (String "010" "Some filters could not be created:")) ;;
                   forOf (fun _ err => console (EvConsoleLog ("  - " +:+ err)))
                         errors tt
                 else mret tt) ;;
                (mret createdCount : M nat))).
  { intros [createdCount errors].
    apply returns_bind; [|intros _; apply returns_ret].
    destruct (0 <? length errors)%nat; [|apply returns_ret].
    apply returns_bind; [apply returns_console|]. intros _.
    apply returns_forOf. intros acc err. apply returns_console. }
  unfold createFilters. rewrite run_bind.
  destruct (createFiltersFor_returns gmail this labels E
              (newsletters analysisResults) "Filtered/Newsletters"
              "Newsletter" (0, []) w Hq) as ((s1 & Hs1) & Hq1).
  destruct (createFiltersFor _ _ _ (newsletters analysisResults) _ _ _ w)
    as [[e|s1'] w1]; cbn [fst snd] in *; [discriminate|].
  rewrite run_bind.
  destruct (createFiltersFor_returns gmail this labels E
              (promotional analysisResults) "Filtered/Promotional"
              "Promotional" s1' w1 Hq1) as ((s2 & Hs2) & Hq2).
  destruct (createFiltersFor _ _ _ (promotional analysisResults) _ _ _ w1)
    as [[e|s2'] w2]; cbn [fst snd] in *; [discriminate|].
  rewrite run_bind.
  destruct (createFiltersFor_returns gmail this labels E
              (automated analysisResults) "Filtered/Automated"
              "Automated" s2' w2 Hq2) as ((s3 & Hs3) & Hq3).
  destruct (createFiltersFor _ _ _ (automated analysisResults) _ _ _ w2)
    as [[e|s3'] w3]; cbn [fst snd] in *; [discriminate|].
  destruct (Hreport s3' w3 Logic.I) as ((n & Hn) & _).
  now exists n.
Qed.

Lemma createFilters_returns_witness :
  exists createdCount,
    fst (createFilters (fun _ r => match r with
                                   | FiltersList => inr (RFilters None)
                                   | _ => inl unavailable
                                   end)
           (Filter.new []) tenNewsletters ∅ (mkWorld 5000 [] 0 None))
    = inr createdCount.
Proof.
  apply (createFilters_returns _ (Filter.new []) tenNewsletters ∅
           (mkWorld 5000 [] 0 None) []).
  reflexivity.
Defined.

(** When the existing rules are not in the cache and the provider refuses
    to list them, [createFilters] throws that error at the first candidate
    sender, before any rule is created. *)
Theorem createFilters_list_failure (gmail : Gmail) (this : EmailFilter)
        (analysisResults : EmailStats) (labels : gmap string Label)
        (w : World) (e : Error) :
  existingFilters w = None ->
  gmail (trace w) FiltersList = inl e ->
  5 < length (newsletters analysisResults) ->
  getFrequentSenders (newsletters analysisResults) 3 <> [] ->
  createFilters gmail this analysisResults labels w
  = (inl e, emit (EvCall FiltersList) w).
Proof.
  intros Hcache Hlist Hlen Hfreq. unfold createFilters. rewrite run_bind.
  unfold createFiltersFor at 1.
  destruct (Nat.ltb_spec 5 (length (newsletters analysisResults)));
    [|lia].
  destruct (getFrequentSenders (newsletters analysisResults) 3)
    as [|s rest]; [contradiction|].
  cbn [forOf]. rewrite run_bind. unfold createFilterStep. rewrite run_bind.
  unfold filterExists. rewrite run_bind. unfold getExistingFilters, call.
  now rewrite Hcache, Hlist.
Qed.

Lemma createFilters_list_failure_witness :
  createFilters (fun _ _ => inl unavailable) (Filter.new []) tenNewsletters ∅
                (mkWorld 5000 [] 0 None)
  = (inl unavailable, emit (EvCall FiltersList) (mkWorld 5000 [] 0 None)).
Proof.
  apply (createFilters_list_failure (fun _ _ => inl unavailable)
           (Filter.new []) tenNewsletters ∅ (mkWorld 5000 [] 0 None)
           unavailable).
  - reflexivity.
  - reflexivity.
  - cbn. lia.
  - vm_compute. discriminate.
Defined.

(** ** Checkpoint store: composition *)

Section CheckpointMore.
Import Checkpoint.

(** What [updateCheckpoint] returns is what the next [loadCheckpoint]
    reads; and two updates in a row amount to one update with the fields
    of the second over those of the first. *)
Theorem updateCheckpoint_composes (now1 now2 : string)
        (data1 data2 : gmap string Json) (disk : Disk) :
  writable disk = true ->
  exists updated1 disk1 updated2 disk2,
    updateCheckpoint now1 data1 disk = (inr updated1, disk1)
    /\ loadCheckpoint disk1 = (inr updated1, disk1)
    /\ updateCheckpoint now2 data2 disk1 = (inr updated2, disk2)
    /\ updateCheckpoint now2 (data2 ∪ data1) disk = (inr updated2, disk2).
Proof.
  intros Hw.
  set (current := default defaultCheckpoint (content disk)).
  set (updated1 := <["lastRun" := JStr now1]> (data1 ∪ current)).
  set (updated2 := <["lastRun" := JStr now2]> (data2 ∪ updated1)).
  exists updated1, (mkDisk (Some updated1) true),
         updated2, (mkDisk (Some updated2) true).
  split; [now apply updateCheckpoint_run|].
  split; [reflexivity|].
  split; [now rewrite updateCheckpoint_run|].
  rewrite updateCheckpoint_run by exact Hw. fold current.
  assert (Heq : <["lastRun" := JStr now2]> ((data2 ∪ data1) ∪ current)
                = updated2).
  { subst updated2 updated1. apply map_eq. intros k.
    destruct (decide (k = "lastRun")) as [->|Hk].
    - now rewrite !lookup_insert_eq.
    - rewrite !lookup_insert_ne by congruence.
      rewrite <- (assoc_L (∪)). rewrite !lookup_union.
      rewrite lookup_insert_ne by congruence.
      now rewrite lookup_union. }
  now rewrite Heq.
Qed.

Lemma updateCheckpoint_composes_witness :
  exists updated1 disk1 updated2 disk2,
    updateCheckpoint "2026-01-02T03:04:05.000Z"
      (<["totalProcessed" := JNum 500]> ∅) (mkDisk None true)
    = (inr updated1, disk1)
    /\ loadCheckpoint disk1 = (inr updated1, disk1)
    /\ updateCheckpoint "2026-01-03T03:04:05.000Z"
         (<["lastProcessedDate" := JStr "2026-01-03"]> ∅) disk1
       = (inr updated2, disk2)
    /\ updateCheckpoint "2026-01-03T03:04:05.000Z"
         (<["lastProcessedDate" := JStr "2026-01-03"]> ∅
            ∪ <["totalProcessed" := JNum 500]> ∅) (mkDisk None true)
       = (inr updated2, disk2).
Proof.
  apply (updateCheckpoint_composes "2026-01-02T03:04:05.000Z"
           "2026-01-03T03:04:05.000Z"
           (<["totalProcessed" := JNum 500]> ∅)
           (<["lastProcessedDate" := JStr "2026-01-03"]> ∅)
           (mkDisk None true)).
  reflexivity.
Defined.



End CheckpointMore.

(** ** Parsing the From header *)

Lemma toLowerCaseChar_idempotent (c : ascii) :
  toLowerCaseChar (toLowerCaseChar c) = toLowerCaseChar c.
Proof. destruct c as [[] [] [] [] [] [] [] []]; reflexivity. Qed.

Lemma toLowerCase_idempotent (s : string) :
  toLowerCase (toLowerCase s) = toLowerCase s.
Proof.
  induction s as [|c s IH]; [reflexivity|].
  cbn [toLowerCase]. now rewrite toLowerCaseChar_idempotent, IH.
Qed.

(** The address and the domain that the helpers extract are in lower
    case, whatever the header: lower-casing them again changes nothing. *)
Theorem extracted_lowercase (field : string) :
  toLowerCase (extractEmail field) = extractEmail field
  /\ toLowerCase (extractDomain field) = extractDomain field.
Proof.
  unfold extractEmail, extractDomain. split.
  - destruct (exec reAngle field); [apply toLowerCase_idempotent|].
    destruct (exec reAddress field); apply toLowerCase_idempotent.
  - destruct (exec reDomain field);
      [apply toLowerCase_idempotent | reflexivity].
Qed.

Lemma flat_map_map {A B C} (f : B -> list C) (h : A -> B) (l : list A) :
  flat_map f (map h l) = flat_map (fun x => f (h x)) l.
Proof.
  induction l as [|x l IH]; [reflexivity|]. cbn. now rewrite IH.
Qed.

Lemma exec_head {A} (p : Pattern A) (s : string) (a : A) (r : string)
      (tl : list (A * string)) :
  p s = (a, r) :: tl -> exec p s = Some a.
Proof. intros H. destruct s; cbn [exec]; now rewrite H. Qed.

Lemma exec_skip {A} (p : Pattern A) (c : ascii) (s : string) :
  p (String c s) = [] -> exec p (String c s) = exec p s.
Proof. intros H. cbn [exec]. now rewrite H. Qed.

Lemma one_chr (a : ascii) (s : string) :
  one (chr a) (String a s) = [(a, s)].
Proof. unfold one, chr. now rewrite Ascii.eqb_refl. Qed.

Lemma append_cons (c : ascii) (s r : string) :
  String c s +:+ r = String c (s +:+ r).
Proof. reflexivity. Qed.

Lemma plusLazy_cons (cls : ascii -> bool) (c : ascii) (s : string) :
  plusLazy cls (String c s)
  = if cls c
    then (String c EmptyString, s)
           :: map (fun '(m, r) => (String c m, r)) (plusLazy cls s)
    else [].
Proof. reflexivity. Qed.

Lemma plus_cons (cls : ascii -> bool) (c : ascii) (s : string) :
  plus cls (String c s)
  = if cls c
    then (map (fun '(m, r) => (String c m, r)) (plus cls s)
            ++ [(String c EmptyString, s)])%list
    else [].
Proof. reflexivity. Qed.

(** the lazy run up to the first [>] *)
Lemma plusLazy_until (rest : string) (addr : string) :
  addr <> "" ->
  allChars (fun c => dot c && negb (chr ">" c)) addr = true ->
  forall g : string -> string,
  exists tl,
    flat_map (fun '(m, r) => (one (chr ">") ~> pure (g m)) r)
             (plusLazy dot (addr +:+ String ">" rest))
    = (g addr, rest) :: tl.
Proof.
  induction addr as [|c addr IH]; intros Hne Hall g; [contradiction|].
  cbn [allChars] in Hall. apply andb_true_iff in Hall.
  destruct Hall as (Hc & Hall). apply andb_true_iff in Hc.
  destruct Hc as (Hdot & Hgt).
  rewrite append_cons, plusLazy_cons, Hdot. cbn [flat_map].
  destruct addr as [|c2 addr'].
  - change ("" +:+ String ">" rest) with (String ">" rest).
    unfold andThen at 1, one at 1, chr at 1.
    rewrite Ascii.eqb_refl. cbn [flat_map]. unfold pure at 1.
    eexists. reflexivity.
  - cbn [allChars] in Hall. apply andb_true_iff in Hall.
    destruct Hall as (Hc2 & Hall'). apply andb_true_iff in Hc2.
    destruct Hc2 as (Hdot2 & Hgt2). apply negb_true_iff in Hgt2.
    assert (Hfirst : (one (chr ">") ~> pure (g (String c "")))
                       (String c2 addr' +:+ String ">" rest) = []).
    { rewrite append_cons. unfold andThen, one. now rewrite Hgt2. }
    rewrite Hfirst. cbn [app]. rewrite flat_map_map.
    destruct (IH ltac:(discriminate)
                 ltac:(cbn [allChars]; rewrite Hdot2, Hall';
                       unfold chr in *; now rewrite Hgt2)
                 (fun m => g (String c m))) as (tl & Htl).
    exists tl. rewrite <- Htl. apply flat_map_ext. now intros [m r].
Qed.

Lemma exec_reAngle_skip (name s : string) :
  allChars (fun c => negb (chr "<" c)) name = true ->
  exec reAngle (name +:+ s) = exec reAngle s.
Proof.
  induction name as [|c name IH]; intros Hall; [reflexivity|].
  cbn [allChars] in Hall. apply andb_true_iff in Hall.
  destruct Hall as (Hc & Hall). apply negb_true_iff in Hc.
  rewrite append_cons, exec_skip; [now apply IH|].
  unfold reAngle, andThen, one. now rewrite Hc.
Qed.

(** In a header of the form [name <address> rest], where the name has no
    [<] and the address is not empty and has no [>] nor line break,
    [extractEmail] returns the address in lower case. *)
Theorem extractEmail_angle (name addr rest : string) :
  allChars (fun c => negb (chr "<" c)) name = true ->
  addr <> "" ->
  allChars (fun c => dot c && negb (chr ">" c)) addr = true ->
  extractEmail (name +:+ String "<" (addr +:+ String ">" rest))
  = toLowerCase addr.
Proof.
  intros Hname Hne Haddr. unfold extractEmail.
  rewrite (exec_reAngle_skip name _ Hname).
  destruct (plusLazy_until rest addr Hne Haddr (fun m => m)) as (tl & Htl).
  assert (Hmatch : exists tl',
             reAngle (String "<" (addr +:+ String ">" rest))
             = (addr, rest) :: tl').
  { unfold reAngle. unfold andThen at 1. rewrite one_chr.
    cbn [flat_map]. rewrite app_nil_r.
    unfold andThen at 1. rewrite Htl. now exists tl. }
  destruct Hmatch as (tl' & Hmatch).
  now rewrite (exec_head _ _ _ _ _ Hmatch).
Qed.

Lemma extractEmail_angle_witness :
  extractEmail "Bob Smith <Bob.Smith@Example.com> (work)"
  = "bob.smith@example.com".
Proof.
  apply (extractEmail_angle "Bob Smith " "Bob.Smith@Example.com" " (work)").
  - reflexivity.
  - discriminate.
  - reflexivity.
Defined.

(** the greedy run over a whole word *)
Lemma plus_whole (cls : ascii -> bool) (word rest : string) :
  word <> "" ->
  allChars cls word = true ->
  stopsAt cls rest = true ->
  exists tl, plus cls (word +:+ rest) = (word, rest) :: tl.
Proof.
  intros Hne Hall Hstop.
  assert (Hrest : plus cls rest = []).
  { destruct rest as [|c rest']; [reflexivity|].
    cbn [stopsAt] in Hstop. apply negb_true_iff in Hstop.
    rewrite plus_cons. now rewrite Hstop. }
  induction word as [|c word IH]; [contradiction|].
  cbn [allChars] in Hall. apply andb_true_iff in Hall.
  destruct Hall as (Hc & Hall).
  rewrite append_cons, plus_cons, Hc.
  destruct word as [|c2 word'].
  - change ("" +:+ rest) with rest. rewrite Hrest. cbn. now eexists.
  - destruct (IH ltac:(discriminate) Hall) as (tl & Htl).
    rewrite Htl. cbn [map app]. now eexists.
Qed.

Lemma exec_reDomain_skip (local s : string) :
  allChars (fun c => negb (chr "@" c)) local = true ->
  exec reDomain (local +:+ s) = exec reDomain s.
Proof.
  induction local as [|c local IH]; intros Hall; [reflexivity|].
  cbn [allChars] in Hall. apply andb_true_iff in Hall.
  destruct Hall as (Hc & Hall). apply negb_true_iff in Hc.
  rewrite append_cons, exec_skip; [now apply IH|].
  unfold reDomain, andThen, one. now rewrite Hc.
Qed.

(** For [local@domain] followed by nothing, by white space or by [>],
    where the local part has no [@] and the domain is a non-empty run
    without white space and [>], [extractDomain] returns the domain in
    lower case. *)
Theorem extractDomain_address (local domain rest : string) :
  allChars (fun c => negb (chr "@" c)) local = true ->
  domain <> "" ->
  allChars notGtSpace domain = true ->
  stopsAt notGtSpace rest = true ->
  extractDomain (local +:+ String "@" (domain +:+ rest))
  = toLowerCase domain.
Proof.
  intros Hlocal Hne Hdom Hstop. unfold extractDomain.
  rewrite (exec_reDomain_skip local _ Hlocal).
  destruct (plus_whole notGtSpace domain rest Hne Hdom Hstop) as (tl & Htl).
  assert (Hmatch : exists tl',
             reDomain (String "@" (domain +:+ rest)) = (domain, rest) :: tl').
  { unfold reDomain. unfold andThen at 1. rewrite one_chr.
    cbn [flat_map]. rewrite app_nil_r.
    unfold andThen. rewrite Htl. cbn. now eexists. }
  destruct Hmatch as (tl' & Hmatch).
  now rewrite (exec_head _ _ _ _ _ Hmatch).
Qed.

Lemma extractDomain_address_witness :
  extractDomain "Alerts <alerts@Billing.Chase.com>" = "billing.chase.com".
Proof.
  apply (extractDomain_address "Alerts <alerts" "Billing.Chase.com" ">").
  - reflexivity.
  - discriminate.
  - reflexivity.
  - reflexivity.
Defined.

(** ** One protected address protects its domain *)

Lemma lower_keeps_classes (c : ascii) :
  isWhiteSpace (toLowerCaseChar c) = isWhiteSpace c
  /\ chr "@" (toLowerCaseChar c) = chr "@" c
  /\ chr ">" (toLowerCaseChar c) = chr ">" c.
Proof. destruct c as [[] [] [] [] [] [] [] []]; repeat split. Qed.

Lemma allChars_lower (cls : ascii -> bool) (s : string) :
  (forall c, cls (toLowerCaseChar c) = cls c) ->
  allChars cls (toLowerCase s) = allChars cls s.
Proof.
  intros Hcls. induction s as [|c s IH]; [reflexivity|].
  cbn [toLowerCase allChars]. now rewrite Hcls, IH.
Qed.

Lemma toLowerCase_app (s r : string) :
  toLowerCase (s +:+ r) = toLowerCase s +:+ toLowerCase r.
Proof.
  induction s as [|c s IH]; [reflexivity|].
  rewrite append_cons. cbn [toLowerCase]. now rewrite append_cons, IH.
Qed.

Lemma allChars_app (cls : ascii -> bool) (s r : string) :
  allChars cls (s +:+ r) = allChars cls s && allChars cls r.
Proof.
  induction s as [|c s IH]; [reflexivity|].
  rewrite append_cons. cbn [allChars]. now rewrite IH, andb_assoc.
Qed.

Lemma trimEnd_solid (s : string) :
  allChars notSpace s = true -> trimEnd s = s.
Proof.
  induction s as [|c s IH]; [reflexivity|].
  cbn [allChars]. intros H. apply andb_true_iff in H. destruct H as (Hc & Hs).
  cbn [trimEnd]. rewrite (IH Hs). unfold notSpace in Hc.
  apply negb_true_iff in Hc. rewrite Hc. now destruct s.
Qed.

Lemma trim_solid (s : string) : allChars notSpace s = true -> trim s = s.
Proof.
  intros H. unfold trim.
  assert (Hstart : trimStart s = s).
  { destruct s as [|c s]; [reflexivity|]. cbn [allChars] in H.
    apply andb_true_iff in H. destruct H as (Hc & _). unfold notSpace in Hc.
    apply negb_true_iff in Hc. cbn [trimStart]. now rewrite Hc. }
  rewrite Hstart. now apply trimEnd_solid.
Qed.

Lemma allChars_notSpace (s : string) :
  allChars notGtSpace s = true -> allChars notSpace s = true.
Proof.
  induction s as [|c s IH]; [reflexivity|].
  cbn [allChars]. intros H. apply andb_true_iff in H. destruct H as (Hc & Hs).
  rewrite (IH Hs), andb_true_r.
  unfold notGtSpace in Hc. apply andb_true_iff in Hc. apply Hc.
Qed.

Lemma includes_app_at (s r : string) : includes (s +:+ String "@" r) "@" = true.
Proof.
  induction s as [|c s IH].
  - change ("" +:+ String "@" r) with (String "@" r).
    rewrite includes_at. now rewrite Ascii.eqb_refl.
  - rewrite append_cons, includes_at, IH. apply orb_true_r.
Qed.

(** An entry [local2@domain] of the protected senders protects every
    address [local1@domain] of the same domain, whatever the case of the
    letters: here the local parts have no [@], the entry has no white
    space, and the domain is a non-empty run without white space and
    [>]. *)
Theorem isProtectedSender_same_domain (local1 local2 domain1 domain2 : string)
        (protectedSenders : list string) :
  allChars (fun c => negb (chr "@" c)) local1 = true ->
  allChars (fun c => negb (chr "@" c)) local2 = true ->
  allChars notSpace local2 = true ->
  local2 <> "" ->
  domain2 <> "" ->
  allChars notGtSpace domain2 = true ->
  toLowerCase domain1 = toLowerCase domain2 ->
  In (local2 +:+ String "@" domain2) protectedSenders ->
  Utils.isProtectedSender (local1 +:+ String "@" domain1) protectedSenders
  = true.
Proof.
  intros Hl1 Hl2 Hsolid2 Hne2 Hned Hdom Hsame Hin.
  assert (Hat : forall c, negb (chr "@" (toLowerCaseChar c)) = negb (chr "@" c)).
  { intros c. now rewrite (proj1 (proj2 (lower_keeps_classes c))). }
  assert (Hsp : forall c, notSpace (toLowerCaseChar c) = notSpace c).
  { intros c. unfold notSpace. now rewrite (proj1 (lower_keeps_classes c)). }
  assert (Hgs : forall c, notGtSpace (toLowerCaseChar c) = notGtSpace c).
  { intros c. unfold notGtSpace.
    destruct (lower_keeps_classes c) as (Hw & _ & Hg). unfold chr in Hg.
    rewrite Hw. rewrite (Ascii.eqb_sym (toLowerCaseChar c)), Hg.
    now rewrite (Ascii.eqb_sym ">"). }
  set (domain := toLowerCase domain2) in *.
  assert (Hned' : domain <> "") by (subst domain; now destruct domain2).
  assert (Hdom' : allChars notGtSpace domain = true)
    by (subst domain; now rewrite (allChars_lower _ _ Hgs)).
  assert (Hidem : toLowerCase domain = domain)
    by (subst domain; apply toLowerCase_idempotent).
  assert (Hdomain : forall l, allChars (fun c => negb (chr "@" c)) l = true ->
             extractDomain (toLowerCase l +:+ String "@" domain) = domain).
  { intros l Hl. rewrite <- Hidem at 2.
    replace domain with (domain +:+ "") at 1
      by (clear; induction domain as [|c s IH];
          [reflexivity | now rewrite append_cons, IH]).
    apply extractDomain_address; try assumption; [|reflexivity].
    now rewrite (allChars_lower _ _ Hat). }
  unfold Utils.isProtectedSender. apply existsb_exists.
  exists (local2 +:+ String "@" domain2). split; [exact Hin|]. cbv zeta.
  rewrite !toLowerCase_app. cbn [toLowerCase].
  change (toLowerCaseChar "@") with "@"%char.
  rewrite Hsame. fold domain.
  assert (Hsolid : allChars notSpace
                     (toLowerCase local2 +:+ String "@" domain) = true).
  { rewrite allChars_app. cbn [allChars].
    rewrite (allChars_lower _ _ Hsp), Hsolid2.
    rewrite (allChars_notSpace _ Hdom'). reflexivity. }
  rewrite (trim_solid _ Hsolid).
  rewrite (Hdomain local1 Hl1), (Hdomain local2 Hl2).
  destruct (String.eqb _ _); [reflexivity|].
  rewrite includes_app_at. cbn [negb andb].
  assert (Hstart : startsWith (toLowerCase local2 +:+ String "@" domain) "@"
                   = false).
  { destruct local2 as [|c l2]; [contradiction|].
    cbn [toLowerCase]. rewrite append_cons.
    change (startsWith (String (toLowerCaseChar c)
                               (toLowerCase l2 +:+ String "@" domain)) "@")
      with (Ascii.eqb "@" (toLowerCaseChar c)
            && startsWith (toLowerCase l2 +:+ String "@" domain) "").
    cbn [allChars] in Hl2. apply andb_true_iff in Hl2.
    destruct Hl2 as (Hc & _). rewrite <- Hat in Hc.
    apply negb_true_iff in Hc. unfold chr in Hc. now rewrite Hc. }
  rewrite Hstart, String.eqb_refl.
  destruct (String.eqb_spec domain ""); [contradiction|].
  reflexivity.
Qed.

Lemma isProtectedSender_same_domain_witness :
  Utils.isProtectedSender "Stranger@Corp.com" ["boss@corp.com"] = true.
Proof.
  apply (isProtectedSender_same_domain "Stranger" "boss" "Corp.com" "corp.com").
  - reflexivity.
  - reflexivity.
  - reflexivity.
  - discriminate.
  - discriminate.
  - reflexivity.
  - reflexivity.
  - now left.
Defined.

(** ** Labels *)

Section LabelProperties.
Import Labels.

(** [createLabel] ensures the label: when the provider refuses the
    creation because the name exists, the labels are listed and the first
    one of that name is returned; the result, when there is one, bears the
    name asked for, and there is one as soon as the list holds a label of
    that name. *)
Theorem createLabel_existing (api : LabelApi) (name : string)
        (h : list LabelEvent) (error : Error) (m : string)
        (labels : list LabelData) :
  labelsCreate api h name = inl error ->
  message error = Some m ->
  includes m "Label name exists" = true ->
  labelsList api (h ++ [LCall (LabelsCreate name "labelShow" "show")])
  = inr (Some labels) ->
  exists result,
    createLabel api name h
    = (inr result,
       (h ++ [LCall (LabelsCreate name "labelShow" "show"); LCall LabelsList])%list)
    /\ (forall l, result = Some l -> labelName l = name /\ In l labels)
    /\ ((exists l, In l labels /\ labelName l = name) -> result <> None).
Proof.
  intros Hcreate Hmsg Hexists Hlist.
  exists (findByName name labels). split; [|split].
  - unfold createLabel. cbv zeta. rewrite Hcreate, Hmsg, Hexists, Hlist.
    now rewrite <- app_assoc.
  - intros l Hl. unfold findByName in Hl. apply find_some in Hl.
    destruct Hl as (Hin & Heq). apply String.eqb_eq in Heq. now split.
  - intros (l & Hin & Hname) Hnone. unfold findByName in Hnone.
    apply (find_none _ _ Hnone) in Hin. rewrite Hname in Hin.
    now rewrite String.eqb_refl in Hin.
Qed.

Lemma createLabel_existing_witness :
  exists result,
    createLabel
      (mkLabelApi
         (fun _ _ => inl (mkError (Some 409%Z) (Some "Label name exists or conflicts")))
         (fun _ => inr (Some [mkLabelData "INBOX" "INBOX";
                              mkLabelData "VIP" "Label_7"])))
      "VIP" []
    = (inr result,
       ([] ++ [LCall (LabelsCreate "VIP" "labelShow" "show"); LCall LabelsList])%list)
    /\ (forall l, result = Some l ->
          labelName l = "VIP"
          /\ In l [mkLabelData "INBOX" "INBOX"; mkLabelData "VIP" "Label_7"])
    /\ ((exists l, In l [mkLabelData "INBOX" "INBOX"; mkLabelData "VIP" "Label_7"]
                   /\ labelName l = "VIP") -> result <> None).
Proof.
  apply (createLabel_existing _ "VIP" []
           (mkError (Some 409%Z) (Some "Label name exists or conflicts"))
           "Label name exists or conflicts").
  - reflexivity.
  - reflexivity.
  - reflexivity.
  - reflexivity.
Defined.

Lemma created_app (h h' : list LabelEvent) :
  created (h ++ h') = (created h ++ created h')%list.
Proof. apply omap_app. Qed.

Lemma setupStep_run (api : LabelApi) (createdLabels : gmap string LabelData)
      (name : string) (h : list LabelEvent) :
  exists createdLabels' evs,
    setupStep api createdLabels name h = (inr createdLabels', (h ++ evs)%list)
    /\ created evs = [name]
    /\ (forall k l, createdLabels' !! k = Some l ->
          k = name \/ createdLabels !! k = Some l)
    /\ (forall data, labelsCreate api h name = inr data ->
          createdLabels' !! name = Some data)
    /\ (forall k, k <> name -> createdLabels' !! k = createdLabels !! k).
Proof.
  unfold setupStep, createLabel. cbv zeta.
  destruct (labelsCreate api h name) as [error|data] eqn:Hcreate.
  - assert (Hkeep : forall k l, createdLabels !! k = Some l ->
               k = name \/ createdLabels !! k = Some l) by (intros; now right).
    assert (Hdel : forall k l, delete name createdLabels !! k = Some l ->
               k = name \/ createdLabels !! k = Some l).
    { intros k l Hk. right. apply lookup_delete_Some in Hk. tauto. }
    assert (Hins : forall v k l, <[name := v]> createdLabels !! k = Some l ->
               k = name \/ createdLabels !! k = Some l).
    { intros v k l Hk. apply lookup_insert_Some in Hk.
      destruct Hk as [(<- & _)|(_ & Hk)]; [now left | now right]. }
    destruct (message error) as [m|].
    + destruct (includes m "Label name exists").
      * destruct (labelsList api _) as [e|[labels|]].
        -- eexists _, [_; _; _]. split; [now rewrite <- !app_assoc|].
           repeat split; try assumption; try discriminate; reflexivity.
        -- destruct (findByName name labels) as [l|].
           ++ eexists _, [_; _]. split; [now rewrite <- !app_assoc|].
              split; [reflexivity|]. split; [apply Hins|].
              split; [discriminate|].
              intros k Hk. now apply lookup_insert_ne.
           ++ eexists _, [_; _]. split; [now rewrite <- !app_assoc|].
              split; [reflexivity|]. split; [exact Hdel|].
              split; [discriminate|].
              intros k Hk. now apply lookup_delete_ne.
        -- eexists _, [_; _; _]. split; [now rewrite <- !app_assoc|].
           repeat split; try assumption; try discriminate; reflexivity.
      * eexists _, [_; _]. split; [now rewrite <- !app_assoc|].
        repeat split; try assumption; try discriminate; reflexivity.
    + eexists _, [_; _]. split; [now rewrite <- !app_assoc|].
      repeat split; try assumption; try discriminate; reflexivity.
  - eexists _, [_]. split; [reflexivity|]. split; [reflexivity|].
    split.
    + intros k l Hk. apply lookup_insert_Some in Hk.
      destruct Hk as [(<- & _)|(_ & Hk)]; [now left | now right].
    + split.
      * intros data' [= <-]. apply lookup_insert_eq.
      * intros k Hk. now apply lookup_insert_ne.
Qed.

Lemma setupLoop_run (api : LabelApi) (names : list string) :
  forall (createdLabels : gmap string LabelData) (h : list LabelEvent),
  exists result evs,
    setupLoop api names createdLabels h = (inr result, (h ++ evs)%list)
    /\ created evs = names
    /\ (forall k l, result !! k = Some l ->
          In k names \/ createdLabels !! k = Some l).
Proof.
  induction names as [|name names IH]; intros createdLabels h.
  - exists createdLabels, []. cbn. rewrite app_nil_r.
    split; [reflexivity|]. split; [reflexivity | now right].
  - cbn [setupLoop].
    destruct (setupStep_run api createdLabels name h)
      as (c1 & evs1 & Hrun1 & Hcr1 & Hdom1 & _).
    rewrite Hrun1.
    destruct (IH c1 (h ++ evs1)%list) as (result & evs2 & Hrun2 & Hcr2 & Hdom2).
    exists result, (evs1 ++ evs2)%list. rewrite Hrun2, <- app_assoc.
    split; [reflexivity|].
    split; [now rewrite created_app, Hcr1, Hcr2|].
    intros k l Hk. destruct (Hdom2 k l Hk) as [Hin|Hc1]; [left; now right|].
    destruct (Hdom1 k l Hc1) as [->|Hc]; [left; now left | now right].
Qed.

(** Whatever the provider answers, [setupFilteringLabels] returns
    normally: it asks for the creation of its ten labels, each once and in
    the order of its table, and the map it returns has no other key than
    these ten names. *)
Theorem setupFilteringLabels_total (api : LabelApi) (h : list LabelEvent) :
  exists result evs,
    setupFilteringLabels api h = (inr result, (h ++ evs)%list)
    /\ created evs = labelNames
    /\ forall k l, result !! k = Some l -> In k labelNames.
Proof.
  destruct (setupLoop_run api labelNames ∅ h)
    as (result & evs & Hrun & Hcr & Hdom).
  exists result, evs. split; [exact Hrun|]. split; [exact Hcr|].
  intros k l Hk. destruct (Hdom k l Hk) as [Hin|Hempty]; [exact Hin|].
  now rewrite lookup_empty in Hempty.
Qed.

End LabelProperties.
